(** * go-netty: the handler pipeline, exception wrapping and listener start-up

    A shallow embedding of [pipeline.go], [exception.go], the listeners of
    [bootstrap.go], [transport/options.go] and the tcp transport.  The
    pipeline is an intrusive doubly linked list of [*handlerContext] nodes; it
    is modelled over an explicit store of nodes indexed by addresses, so that
    the aliasing between [p.head.next], [oldNext.prev] and friends is the one
    of the Go code. *)

From stdpp Require Import gmap strings list pretty.
From Stdlib Require Import ZArith Lia.

(** ** Go's [int] on a 64-bit target *)

Definition int_min : Z := (- 2 ^ 63)%Z.
Definition int_max : Z := (2 ^ 63 - 1)%Z.

(** Two's complement wrap-around of arithmetic on [int]. *)
Definition wrap_int (z : Z) : Z := ((z + 2 ^ 63) mod 2 ^ 64 - 2 ^ 63)%Z.

(** Addresses of heap-allocated [handlerContext] values.  A pointer is an
    [option loc]; [None] is Go's [nil]. *)
Abbreviation loc := positive (only parsing).

(** * pipeline.go *)

Module Pipeline.

(** ** Handlers *)

Definition Message := string.

(** The six capability interfaces tested by the type switch of
    [checkHandler]. *)
Inductive capability :=
  | ActiveHandler
  | InboundHandler
  | OutboundHandler
  | ExceptionHandler
  | InactiveHandler
  | EventHandler.

(** What a handler does with a message it is handed: it either forwards a
    (possibly different) message to the next context in the current direction
    or it stops the propagation. *)
Inductive reaction :=
  | Stop
  | Forward (m : Message).

(** A [Handler] value: its dynamic type (as printed by [%T]), the interfaces
    that dynamic type satisfies, and its behaviour on reads and writes (only
    consulted when the matching interface is satisfied). *)
Record Handler := mkHandler {
  type_name : string;
  implements : capability → bool;
  on_read : Message → reaction;
  on_write : Message → reaction;
}.

(** The [switch h.(type)] of [checkHandler]: the cases are tried in order and
    all six have an empty body; only [default] asserts. *)
Definition recognized (h : Handler) : bool :=
  if implements h ActiveHandler then true
  else if implements h InboundHandler then true
  else if implements h OutboundHandler then true
  else if implements h ExceptionHandler then true
  else if implements h InactiveHandler then true
  else if implements h EventHandler then true
  else false.

(** Modelled from the spec: the sentinel handler type [headHandler], whose
    declaration is in another file of the package.  The spec has inbound
    events enter at the head and move toward the tail, and the head turn
    pipeline-level writes into transport output, where a write ends. *)
Definition headHandler : Handler :=
  {| type_name := "*netty.headHandler";
     implements := λ _, true;
     on_read := Forward;
     on_write := λ _, Stop |}.

(** Modelled from the spec: the sentinel handler type [tailHandler], whose
    declaration is in another file of the package.  The spec has outbound
    writes enter at the tail and move toward the head, and the tail give the
    default terminal behaviour for inbound events nobody consumed. *)
Definition tailHandler : Handler :=
  {| type_name := "*netty.tailHandler";
     implements := λ _, true;
     on_read := λ _, Stop;
     on_write := Forward |}.

(** Two handler types used in examples: one that only reads and passes
    everything on, and one that satisfies none of the six interfaces. *)
Definition inbound_only (name : string) : Handler :=
  {| type_name := name;
     implements := λ c, match c with InboundHandler => true | _ => false end;
     on_read := Forward;
     on_write := Forward |}.

Definition no_capability (name : string) : Handler :=
  {| type_name := name;
     implements := λ _, false;
     on_read := Forward;
     on_write := Forward |}.

(** ** The store *)

(** [handlerContext]: the [pipeline] back-pointer is the one pipeline of the
    state below for every node and is left implicit. *)
Record handlerContext := mkContext {
  handler : Handler;
  prev : option loc;
  next : option loc;
}.

Definition set_prev (v : option loc) (c : handlerContext) : handlerContext :=
  {| handler := handler c; prev := v; next := next c |}.

Definition set_next (v : option loc) (c : handlerContext) : handlerContext :=
  {| handler := handler c; prev := prev c; next := v |}.

(** The [Channel] collaborator is an interface value; only its identity
    matters here. *)
Definition Channel := nat.

(** The [pipeline] struct. *)
Record pipeline := mkPipeline {
  head : loc;
  tail : loc;
  channel : option Channel;
  size : Z;
}.

(** The state a pipeline method runs in: the nodes allocated so far, the
    pipeline struct, and the calls made to [channel.serveChannel()], oldest
    first. *)
Record state := mkState {
  ctxs : gmap loc handlerContext;
  pl : pipeline;
  served : list Channel;
}.

(** ** Panics and the method monad *)

(** A Go panic carries either the [error] built by [utils.Assert] /
    [utils.AssertIf] (a configuration error, with its message) or the runtime
    error of dereferencing [nil]. *)
Inductive panic_value :=
  | ConfigError (msg : string)
  | NilDereference.

Inductive outcome (A : Type) :=
  | Return (a : A)
  | Panicked (v : panic_value).
Arguments Return {A} a.
Arguments Panicked {A} v.

(** A method body: it runs on a state and leaves a state behind, also when it
    panics half-way. *)
Definition M (A : Type) : Type := state → outcome A * state.

Definition ret {A} (a : A) : M A := λ s, (Return a, s).

Definition bind {A B} (m : M A) (k : A → M B) : M B :=
  λ s, match m s with
       | (Return a, s') => k a s'
       | (Panicked v, s') => (Panicked v, s')
       end.

Definition panic {A} (v : panic_value) : M A := λ s, (Panicked v, s).

Definition get : M state := λ s, (Return s, s).

Definition put (s : state) : M unit := λ _, (Return tt, s).

#[global] Instance M_ret : MRet M := @ret.
#[global] Instance M_bind : MBind M := λ A B k m, bind m k.

(** Modelled from the spec: [utils.AssertIf], of the [utils] package.  The
    spec has a failed check end the call at once with a configuration error;
    the message is the formatted one the caller passes. *)
Definition AssertIf (cond : bool) (msg : string) : M unit :=
  if cond then panic (ConfigError msg) else ret tt.

(** Modelled from the spec: [utils.Assert], of the [utils] package: the same
    failure, for an [error] that is not [nil]. *)
Definition Assert (err : option string) : M unit :=
  match err with
  | Some msg => panic (ConfigError msg)
  | None => ret tt
  end.

(** *** Memory operations *)

(** [*p]: reading through a pointer. *)
Definition deref (p : option loc) : M handlerContext :=
  λ s, match p with
       | None => (Panicked NilDereference, s)
       | Some a =>
           match ctxs s !! a with
           | Some c => (Return c, s)
           | None => (Panicked NilDereference, s)
           end
       end.

(** [p.f = v]: writing a field through a pointer. *)
Definition update (p : option loc) (f : handlerContext → handlerContext) : M unit :=
  λ s, match p with
       | None => (Panicked NilDereference, s)
       | Some a =>
           match ctxs s !! a with
           | Some c => (Return tt, mkState (<[a := f c]> (ctxs s)) (pl s) (served s))
           | None => (Panicked NilDereference, s)
           end
       end.

(** [&handlerContext{...}]: a fresh address. *)
Definition alloc (c : handlerContext) : M loc :=
  λ s, let a := fresh (dom (ctxs s)) in
       (Return a, mkState (<[a := c]> (ctxs s)) (pl s) (served s)).

(** [p.size++] *)
Definition incr (z : Z) : Z := wrap_int (z + 1).

Definition incr_size : M unit :=
  λ s, let p := pl s in
       (Return tt,
        mkState (ctxs s)
          (mkPipeline (head p) (tail p) (channel p) (incr (size p)))
          (served s)).

(** ** pipeline.go *)

(** [NewPipelineWith]: the state right after the constructor returns. *)
Definition NewPipelineWith : state :=
  let σ0 : gmap loc handlerContext := ∅ in
  let h := fresh (dom σ0) in
  let σ1 := <[h := mkContext headHandler None None]> σ0 in
  let t := fresh (dom σ1) in
  let σ2 := <[t := mkContext tailHandler None None]> σ1 in
  let σ3 := alter (set_next (Some t)) h σ2 in
  let σ4 := alter (set_prev (Some h)) t σ3 in
  mkState σ4 (mkPipeline h t None 2) [].

(** [fmt.Errorf("unrecognized Handler: %d:%T", index, h)] *)
Definition unrecognized_msg (index : Z) (h : Handler) : string :=
  "unrecognized Handler: " +:+ pretty index +:+ ":" +:+ type_name h.

(** [checkHandler]: the [range] loop, [index] being the loop index. *)
Fixpoint checkHandler_from (index : Z) (handlers : list Handler) : M unit :=
  match handlers with
  | [] => ret tt
  | h :: rest =>
      (if recognized h then ret tt
       else Assert (Some (unrecognized_msg index h)));;
      checkHandler_from (index + 1) rest
  end.

Definition checkHandler (handlers : list Handler) : M unit :=
  checkHandler_from 0 handlers.

(** [addFirst] *)
Definition addFirst (h : Handler) : M unit :=
  s ← get;
  hd ← deref (Some (head (pl s)));
  let oldNext := next hd in
  n ← alloc (mkContext h (Some (head (pl s))) oldNext);
  update (Some (head (pl s))) (set_next (Some n));;
  hd' ← deref (Some (head (pl s)));
  update oldNext (set_prev (next hd'));;
  incr_size.

(** [addLast] *)
Definition addLast (h : Handler) : M unit :=
  s ← get;
  tl ← deref (Some (tail (pl s)));
  let oldPrev := prev tl in
  n ← alloc (mkContext h oldPrev (Some (tail (pl s))));
  update (Some (tail (pl s))) (set_prev (Some n));;
  tl' ← deref (Some (tail (pl s)));
  update oldPrev (set_next (prev tl'));;
  incr_size.

(** [for _, h := range handlers { f(h) }] *)
Fixpoint for_each (f : Handler → M unit) (handlers : list Handler) : M unit :=
  match handlers with
  | [] => ret tt
  | h :: rest => f h;; for_each f rest
  end.

(** [AddFirst] *)
Definition AddFirst (handlers : list Handler) : M unit :=
  checkHandler handlers;;
  for_each addFirst handlers.

(** [AddLast] *)
Definition AddLast (handlers : list Handler) : M unit :=
  checkHandler handlers;;
  for_each addLast handlers.

(** [for i := 0; i < position; i++ { curNode = curNode.next }]: the body runs
    [Z.to_nat position] times (not at all for a position below 1; [i] stays
    below [position], so it never wraps). *)
Fixpoint walk (steps : nat) (curNode : option loc) : M (option loc) :=
  match steps with
  | O => ret curNode
  | S k => c ← deref curNode; walk k (next c)
  end.

(** The insertion loop of [AddHandler]. *)
Fixpoint insert_after (curNode : option loc) (handlers : list Handler) : M unit :=
  match handlers with
  | [] => ret tt
  | h :: rest =>
      c ← deref curNode;
      let oldNext := next c in
      n ← alloc (mkContext h curNode oldNext);
      update curNode (set_next (Some n));;
      c' ← deref curNode;
      update oldNext (set_prev (next c'));;
      c'' ← deref curNode;
      incr_size;;
      insert_after (next c'') rest
  end.

(** [fmt.Errorf("invalid position: %d", position)] *)
Definition invalid_position_msg (position : Z) : string :=
  "invalid position: " +:+ pretty position.

(** [AddHandler] *)
Definition AddHandler (position : Z) (handlers : list Handler) : M unit :=
  checkHandler handlers;;
  s ← get;
  AssertIf (bool_decide (size (pl s) ≤ position)%Z) (invalid_position_msg position);;
  if bool_decide (-1 = position)%Z
     || bool_decide (position = wrap_int (size (pl s) - 1))%Z
  then AddLast handlers
  else
    curNode ← walk (Z.to_nat position) (Some (head (pl s)));
    insert_after curNode handlers.

(** [ContextAt]: [None] is the [nil] result. *)
Definition ContextAt (position : Z) : M (option loc) :=
  s ← get;
  if bool_decide (-1 = position)%Z || bool_decide (size (pl s) ≤ position)%Z
  then ret None
  else walk (Z.to_nat position) (Some (head (pl s))).

(** [Size] *)
Definition Size : M Z :=
  s ← get; ret (size (pl s)).

(** [Channel] (the accessor) *)
Definition get_Channel : M (option Channel) :=
  s ← get; ret (channel (pl s)).

(** [ServeChannel]: [p.channel.serveChannel()] is a call into the collaborator;
    it is recorded.  On a [nil] channel the method call dereferences [nil]. *)
Definition ServeChannel (ch : option Channel) : M unit :=
  s ← get;
  AssertIf (bool_decide (channel (pl s) ≠ None)) "already attached channel";;
  put (mkState (ctxs s)
         (mkPipeline (head (pl s)) (tail (pl s)) ch (size (pl s)))
         (served s));;
  s' ← get;
  match channel (pl s') with
  | Some c => put (mkState (ctxs s') (pl s') (served s' ++ [c]))
  | None => panic NilDereference
  end.

(** Modelled from the spec: the traversal behind the [Handle*] methods of
    [handlerContext], which are in another file of the package.  The
    spec has each context, when visited for an event, invoke its handler if the
    handler declares the matching capability; a handler without it is skipped
    and the context forwards to the next node in the current direction ([next]
    for reads, [prev] for writes); a handler that acts may stop the
    propagation or forward a payload of its choice.  The result is the
    sequence of contexts visited; [None] means the fuel ran out before the
    traversal ended. *)
Fixpoint propagate (cap : capability) (act : Handler → Message → reaction)
    (onward : handlerContext → option loc)
    (fuel : nat) (σ : gmap loc handlerContext)
    (ctx : option loc) (message : Message) : option (list loc) :=
  match ctx with
  | None => Some []
  | Some a =>
      match fuel with
      | O => None
      | S k =>
          match σ !! a with
          | None => Some []
          | Some c =>
              if implements (handler c) cap then
                match act (handler c) message with
                | Stop => Some [a]
                | Forward m => (a ::.) <$> propagate cap act onward k σ (onward c) m
                end
              else (a ::.) <$> propagate cap act onward k σ (onward c) message
          end
      end
  end.

(** Modelled from the spec: [handlerContext.HandleRead], the traversal for
    the Inbound capability, moving forward along [next]. *)
Definition HandleRead := propagate InboundHandler on_read next.

(** Modelled from the spec: [handlerContext.HandleWrite], the traversal for
    the Outbound capability, moving backward along [prev]. *)
Definition HandleWrite := propagate OutboundHandler on_write prev.

(** [FireChannelRead]: [p.head.HandleRead(message)] *)
Definition FireChannelRead (fuel : nat) (message : Message) (s : state)
    : option (list loc) :=
  HandleRead fuel (ctxs s) (Some (head (pl s))) message.

(** [FireChannelWrite]: [p.tail.HandleWrite(message)] *)
Definition FireChannelWrite (fuel : nat) (message : Message) (s : state)
    : option (list loc) :=
  HandleWrite fuel (ctxs s) (Some (tail (pl s))) message.

(** A handler that never stops an event of a kind: it lacks the capability,
    or forwards whatever it is handed. *)
Definition passes (cap : capability) (act : Handler → Message → reaction)
    (h : Handler) : Prop :=
  implements h cap = true → ∀ m, act h m ≠ Stop.

Definition passes_reads : Handler → Prop := passes InboundHandler on_read.

Definition passes_writes : Handler → Prop := passes OutboundHandler on_write.

(** ** The chain held by a state *)

(** The abstract view of a chain: the addresses of its nodes, head first,
    each with the handler the node wraps. *)
Definition first_or (l : list (loc * Handler)) (d : option loc) : option loc :=
  match l with
  | [] => d
  | x :: _ => Some x.1
  end.

Definition last_or (d : option loc) (l : list (loc * Handler)) : option loc :=
  match last l with
  | Some x => Some x.1
  | None => d
  end.

(** [linked σ before l after]: in the store [σ] the nodes of [l] are linked
    to one another in both directions, the first one pointing back to
    [before] and the last one pointing on to [after]. *)
Fixpoint linked (σ : gmap loc handlerContext) (before : option loc)
    (l : list (loc * Handler)) (after : option loc) : Prop :=
  match l with
  | [] => True
  | x :: l' =>
      σ !! x.1 = Some (mkContext x.2 before (first_or l' after))
      ∧ linked σ (Some x.1) l' after
  end.

(** [is_chain s l]: [l] is the chain of [s], from the head sentinel to the
    tail sentinel. *)
Record is_chain (s : state) (l : list (loc * Handler)) : Prop := mkChain {
  chain_linked : linked (ctxs s) None l None;
  chain_nodup : NoDup l.*1;
  chain_head : l.*1 !! 0 = Some (head (pl s));
  chain_tail : last l.*1 = Some (tail (pl s));
  chain_two : 2 ≤ length l;
}.

(** [invariant_with s l]: [l] is the chain of [s] and [size], an [int],
    counts its nodes. *)
Definition invariant_with (s : state) (l : list (loc * Handler)) : Prop :=
  is_chain s l
  ∧ size (pl s) = Z.of_nat (length l)
  ∧ (size (pl s) ≤ int_max)%Z.

(** The structural invariant of the spec: the chain exists and [size] counts
    its nodes, sentinels included. *)
Definition invariant (s : state) : Prop := ∃ l, invariant_with s l.

(** [path onward σ l]: following [onward] from the first node of [l] visits
    the nodes of [l] in order and then reaches [nil]. *)
Fixpoint path (onward : handlerContext → option loc)
    (σ : gmap loc handlerContext) (l : list (loc * Handler)) : Prop :=
  match l with
  | [] => True
  | x :: l' =>
      (∃ c, σ !! x.1 = Some c ∧ handler c = x.2 ∧ onward c = first_or l' None)
      ∧ path onward σ l'
  end.

(** What an insertion leaves alone, and what it does to [size]: [k] is the
    number of [p.size++] executed. *)
Definition grown (s s' : state) (k : nat) : Prop :=
  head (pl s') = head (pl s)
  ∧ tail (pl s') = tail (pl s)
  ∧ channel (pl s') = channel (pl s)
  ∧ served s' = served s
  ∧ size (pl s') = Nat.iter k incr (size (pl s)).

(** A batch every handler of which gets past the type switch of
    [checkHandler]. *)
Abbreviation valid_batch hs := (Forall (λ h, recognized h = true) hs).

(** Where [AddHandler] puts a batch, as an index into a chain of [n] nodes:
    the new nodes come right before the node now at that index. *)
Definition insertion_index (n : nat) (position : Z) : nat :=
  if bool_decide (position = -1 ∨ position = Z.of_nat n - 1)%Z then n - 1
  else S (Z.to_nat position).

(** The handler wrapped by the context at an address. *)
Definition handler_at (s : state) (c : loc) : option Handler :=
  handler <$> ctxs s !! c.

(** Back-links are consistent: between nodes of the chain, [a.next == b]
    exactly when [b.prev == a]. *)
Definition back_links_consistent (s : state) (l : list (loc * Handler)) : Prop :=
  ∀ a b ca cb,
    a ∈ l.*1 → b ∈ l.*1 →
    ctxs s !! a = Some ca → ctxs s !! b = Some cb →
    (next ca = Some b ↔ prev cb = Some a).

End Pipeline.

(** * exception.go *)

Module Exception.

(** The methods of the [Exception] interface a dynamic type may have;
    [error] asks for [Error] alone. *)
Record method_set := mkMethods {
  has_Unwrap : bool;
  has_Error : bool;
  has_Stack : bool;
  has_PrintStackTrace : bool;
}.

Definition no_methods : method_set := mkMethods false false false false.
Definition only_Error : method_set := mkMethods false true false false.
Definition all_four : method_set := mkMethods true true true true.

(** A Go interface value as [AsException] sees it: [nil], a value of this
    package's [exception] struct, or a value of any other type, given by the
    name of its type, its method set and the text [%v] prints for it (for an
    error, what [Error()] returns). *)
Inductive value :=
  | nil
  | exception (error : value) (stack : list Byte.byte)
  | other (type : string) (methods : method_set) (text : string).

(** The [exception] struct has all four methods, on value receivers. *)
Definition methods_of (v : value) : method_set :=
  match v with
  | nil => no_methods
  | exception _ _ => all_four
  | other _ ms _ => ms
  end.

(** [case Exception:] and [case error:] of the type switch. *)
Definition is_Exception (v : value) : bool :=
  let ms := methods_of v in
  has_Unwrap ms && has_Error ms && has_Stack ms && has_PrintStackTrace ms.

Definition is_error (v : value) : bool := has_Error (methods_of v).

(** [fmt.Sprintf("%v", e)]; an error prints as its [Error()]. *)
Fixpoint Sprint_v (e : value) : string :=
  match e with
  | nil => "<nil>"
  | exception err _ => Sprint_v err
  | other _ _ text => text
  end.

(** [fmt.Errorf("%v", e)]: without [%w] the result is an [*errors.errorString]. *)
Definition Errorf_v (e : value) : value :=
  other "*errors.errorString" only_Error (Sprint_v e).

(** [AsException]: the cases of the type switch in source order. *)
Definition AsException (e : value) (stack : list Byte.byte) : value :=
  match e with
  | nil => nil
  | _ =>
      if is_Exception e then e
      else if is_error e then exception e stack
      else exception (Errorf_v e) stack
  end.

(** [exception.Unwrap] and [exception.Stack]; [None] on a value that is not
    an [exception] struct. *)
Definition Unwrap (e : value) : option value :=
  match e with
  | exception err _ => Some err
  | _ => None
  end.

Definition Stack (e : value) : option (list Byte.byte) :=
  match e with
  | exception _ stack => Some stack
  | _ => None
  end.

End Exception.

(** * bootstrap.go: [listener.Sync] *)

Module Bootstrap.

(** What [Sync] does to the outside world, in order. *)
Inductive event (Options Acceptor Transport : Type) :=
  | ParsedOptions (url : string)
  | Listened (options : Options)
  | Accepted (acceptor : Acceptor)
  | Served (transport : Transport)
  | ClosedTransport (transport : Transport).
Arguments ParsedOptions {_ _ _} url.
Arguments Listened {_ _ _} options.
Arguments Accepted {_ _ _} acceptor.
Arguments Served {_ _ _} transport.
Arguments ClosedTransport {_ _ _} transport.

(** How a call ends: it returns an [error] ([None] is [nil]), it panics on a
    [nil] acceptor, or it is still in its accept loop when the fuel runs
    out. *)
Inductive result :=
  | Returned (err : option string)
  | NilPanic
  | StillAccepting.

Section listener.
(** The collaborators: the option parser (its URL handling is the standard
    library's), the transport factory, the acceptor, the bootstrap
    context and the transport.  [Accept] and [Done] are indexed by the
    iteration of the accept loop; the transport [Accept] returns next to
    an error is never looked at. *)
Context {Option Options Acceptor Transport : Type}.
Context (ParseOptions : string → list Option → Options * option string).
Context (Listen : Options → option Acceptor * option string).
Context (Accept : Acceptor → nat → Transport * option string).
Context (Done : nat → bool).
Context (Close : Transport → option string).

(** The [listener] struct; [bs] is the one bootstrap the collaborators
    belong to, and [option_list] is the field [option]. *)
Record listener := mkListener {
  url : string;
  option_list : list Option;
  options : option Options;
  acceptor : option Acceptor;
}.

Abbreviation events := (list (event Options Acceptor Transport)).

(** The [for] loop of [Sync], from iteration [n] on. *)
Fixpoint accept_loop (fuel : nat) (a : Acceptor) (n : nat) : result * events :=
  match fuel with
  | O => (StillAccepting, [])
  | S fuel' =>
      match Accept a n with
      | (_, Some err) => (Returned (Some err), [Accepted a])
      | (t, None) =>
          if Done n then (Returned (Close t), [Accepted a; ClosedTransport t])
          else
            let '(r, evs) := accept_loop fuel' a (S n) in
            (r, Accepted a :: Served t :: evs)
      end
  end.

(** [Sync] *)
Definition Sync (fuel : nat) (l : listener) : result * listener * events :=
  match acceptor l with
  | Some _ => (Returned (Some "duplicate call Listener:Sync"), l, [])
  | None =>
      let '(opts, err) := ParseOptions (url l) (option_list l) in
      let l1 := mkListener (url l) (option_list l) (Some opts) (acceptor l) in
      match err with
      | Some e => (Returned (Some e), l1, [ParsedOptions (url l)])
      | None =>
          let '(acc, err) := Listen opts in
          let l2 := mkListener (url l1) (option_list l1) (options l1) acc in
          match err with
          | Some e =>
              (Returned (Some e), l2, [ParsedOptions (url l); Listened opts])
          | None =>
              match acc with
              | None =>
                  (NilPanic, l2, [ParsedOptions (url l); Listened opts])
              | Some a =>
                  let '(r, evs) := accept_loop fuel a 0 in
                  (r, l2, ParsedOptions (url l) :: Listened opts :: evs)
              end
          end
      end
  end.
End listener.

End Bootstrap.

(** * pipeline.go: the index scans *)

Module PipelineScan.
Import Pipeline.

(** The loop of [IndexOf], entered with index [i] at the node [head]:
    [Return None] means the fuel ran out, [Return (Some r)] that the method
    returns [r]. *)
Fixpoint IndexOf_loop (fuel : nat) (comp : Handler → bool) (i : Z)
    (head : option loc) : M (option Z) :=
  match fuel with
  | O => ret None
  | S fuel' =>
      c ← deref head;
      if comp (handler c) then ret (Some i)
      else
        match next c with
        | None => ret (Some (-1)%Z)
        | Some n => IndexOf_loop fuel' comp (wrap_int (i + 1)) (Some n)
        end
  end.

(** [IndexOf] *)
Definition IndexOf (fuel : nat) (comp : Handler → bool) : M (option Z) :=
  s ← get;
  IndexOf_loop fuel comp 0 (Some (head (pl s))).

(** The loop of [LastIndexOf], entered with index [i] at the node [tail]. *)
Fixpoint LastIndexOf_loop (fuel : nat) (comp : Handler → bool) (i : Z)
    (tail : option loc) : M (option Z) :=
  match fuel with
  | O => ret None
  | S fuel' =>
      c ← deref tail;
      if comp (handler c) then ret (Some i)
      else
        match prev c with
        | None => ret (Some (-1)%Z)
        | Some n => LastIndexOf_loop fuel' comp (wrap_int (i - 1)) (Some n)
        end
  end.

(** [LastIndexOf] *)
Definition LastIndexOf (fuel : nat) (comp : Handler → bool) : M (option Z) :=
  s ← get;
  LastIndexOf_loop fuel comp (wrap_int (size (pl s) - 1)) (Some (tail (pl s))).

(** Both loops are one scan: along [onward], with the index moved by [step]. *)
Fixpoint scan (onward : handlerContext → option loc) (step : Z → Z)
    (fuel : nat) (comp : Handler → bool) (i : Z) (node : option loc)
    : M (option Z) :=
  match fuel with
  | O => ret None
  | S fuel' =>
      c ← deref node;
      if comp (handler c) then ret (Some i)
      else
        match onward c with
        | None => ret (Some (-1)%Z)
        | Some n => scan onward step fuel' comp (step i) (Some n)
        end
  end.

End PipelineScan.

(** * exception.go: the methods of [exception] *)

Module ExceptionMethods.
Import Exception.

(** What [%T] prints for a value. *)
Definition type_of (v : value) : string :=
  match v with
  | nil => "<nil>"
  | exception _ _ => "netty.exception"
  | other type _ _ => type
  end.

(** [err.Error()]: [None] is the panic of calling the method through a [nil]
    interface (a value that is no [error] has no such method and never sits
    in an [error] variable).  [exception.Error] hands over to its cause. *)
Fixpoint Error (err : value) : option string :=
  match err with
  | nil => None
  | exception cause _ => Error cause
  | other _ ms text => if has_Error ms then Some text else None
  end.

(** Where [PrintStackTrace] writes, and what a call comes to. *)
Inductive target (W : Type) :=
  | Stderr
  | Writer (w : W).
Arguments Stderr {W}.
Arguments Writer {W} w.

Inductive printed (W : Type) :=
  | Wrote (to : target W) (text : string)
  | NilPanic
  | OutOfFuel.
Arguments Wrote {W} to text.
Arguments NilPanic {W}.
Arguments OutOfFuel {W}.

Section PrintStackTrace.
(** What the [Unwrap] method of a value of a foreign type returns. *)
Context (Unwrap_other : string → string → value).

(** [err.(interface{ Unwrap() error })] and the call of the method. *)
Definition unwrapper (err : value) : option value :=
  match err with
  | nil => None
  | exception cause _ => Some cause
  | other type ms text =>
      if has_Unwrap ms then Some (Unwrap_other type text) else None
  end.

(** The string ["\n"]. *)
Definition newline : string := String.String (Ascii.ascii_of_nat 10) "".

(** [strings.Repeat("  ", i)] *)
Fixpoint indent (i : nat) : string :=
  match i with
  | O => ""
  | S k => "  " +:+ indent k
  end.

(** The [for] loop of [PrintStackTrace], entered with the counter at [i];
    the result is what the loop appends to the builder: [None] when the fuel
    runs out, [Some None] when [err.Error()] panics. *)
Fixpoint traceback (fuel : nat) (i : nat) (err : value) : option (option string) :=
  match fuel with
  | O => None
  | S fuel' =>
      match Error err with
      | None => Some None
      | Some msg =>
          let line := type_of err +:+ ": " +:+ msg in
          match unwrapper err with
          | Some cause =>
              match traceback fuel' (S i) cause with
              | None => None
              | Some None => Some None
              | Some (Some rest) =>
                  Some (Some (line +:+ newline +:+ indent (S i) +:+ rest))
              end
          | None => Some (Some line)
          end
      end
  end.

(** [sb.WriteString(m)] for every prefix message. *)
Fixpoint join (msg : list string) : string :=
  match msg with
  | [] => ""
  | m :: rest => m +:+ join rest
  end.

(** [exception.PrintStackTrace], on the receiver [exception{error, stack}]. *)
Definition PrintStackTrace {W : Type} (fuel : nat) (error : value)
    (stack : list Byte.byte) (writer : option W) (msg : list string) : printed W :=
  let writer := match writer with None => Stderr | Some w => Writer w end in
  match traceback fuel 0 error with
  | None => OutOfFuel
  | Some None => NilPanic
  | Some (Some trace) =>
      Wrote writer
        (join msg +:+ "Error Traceback:" +:+ newline
         +:+ trace +:+ newline
         +:+ String.string_of_list_byte stack)
  end.
End PrintStackTrace.

(** One entry of the trace, as the loop formats it: [%T: %s] of a cause and
    its message. *)
Definition entry (v : value) : string :=
  type_of v +:+ ": " +:+ default "" (Error v).

(** Two errors of the standard library, for the examples: what
    [fmt.Errorf("read: %w", io.EOF)] returns, and [io.EOF]. *)
Definition wrapError : value :=
  other "*fmt.wrapError" (mkMethods true true false false) "read: EOF".
Definition EOF : value := other "*errors.errorString" only_Error "EOF".

End ExceptionMethods.

(** * transport/options.go *)

Module Transport.

(** The fields of [url.URL] the package reads or writes. *)
Record URL := mkURL {
  Scheme : string;
  Host : string;
  Path : string;
}.

(** [strings.Contains(s, substr)] *)
Fixpoint Contains (s substr : string) : bool :=
  if String.prefix substr s then true
  else
    match s with
    | EmptyString => false
    | String.String _ rest => Contains rest substr
    end.

Section options.
(** [context.Context] values, and [url.Parse] of the standard library: the
    URL it returns ([None] is [nil]) and its error, given by its message. *)
Context {Ctx : Type}.
Context (url_Parse : string → option URL * option string).

(** [Options]; the field [Context] is [Context_]. *)
Record Options := mkOptions {
  Address : option URL;
  Context_ : Ctx;
}.

(** [Option]: a function that updates the options in place and may fail. *)
Definition Option : Type := Options → Options * option string.

(** [Options.Apply] *)
Fixpoint Apply (options : list Option) (lo : Options) : Options * option string :=
  match options with
  | [] => (lo, None)
  | option :: rest =>
      match option lo with
      | (lo', Some err) => (lo', Some err)
      | (lo', None) => Apply rest lo'
      end
  end.

(** [withAddress] *)
Definition withAddress (address : string) : Option :=
  λ options,
    let '(a, err) := url_Parse address in
    let '(a, err) :=
      match err with
      | Some msg =>
          if Contains msg "cannot contain colon"
          then url_Parse ("//" +:+ address)
          else if Contains msg "missing protocol scheme"
          then url_Parse ("//" +:+ address)
          else (a, err)
      | None => (a, err)
      end in
    let a :=
      match a with
      | Some u =>
          if String.eqb "" (Path u) then Some (mkURL (Scheme u) (Host u) "/")
          else Some u
      | None => None
      end in
    (mkOptions a (Context_ options), err).

(** [WithContext] *)
Definition WithContext (ctx : Ctx) : Option :=
  λ options, (mkOptions (Address options) ctx, None).

(** [ParseOptions] *)
Definition ParseOptions (ctx : Ctx) (url : string) (options : list Option)
    : Options * option string :=
  Apply (withAddress url :: options) (mkOptions None ctx).
End options.

(** A stand-in for [url.Parse], for the examples: it accepts only what starts
    with ["//"] and takes the rest for the host. *)
Definition strict_Parse (s : string) : option URL * option string :=
  if String.prefix "//" s
  then (Some (mkURL "" (String.substring 2 (String.length s) s) ""), None)
  else (None, Some "parse: first path segment in URL cannot contain colon").

End Transport.

(** * transport/tcp: socket tuning and the acceptor *)

Module Tcp.

(** Modelled from the spec: the [Options] struct of the tcp package, whose
    declaration is in another file of the package.  These are the fields
    [applyOptions] reads, as the spec lists them: keep-alive, keep-alive
    period, linger (seconds), no-delay and socket buffer size (bytes). *)
Record Options := mkOptions {
  KeepAlive : bool;
  KeepAlivePeriod : Z;
  Linger : Z;
  NoDelay : bool;
  SockBuf : Z;
}.

(** The calls [applyOptions] makes on the [*net.TCPConn]. *)
Inductive sockcall :=
  | SetKeepAlive (keepalive : bool)
  | SetKeepAlivePeriod (d : Z)
  | SetLinger (sec : Z)
  | SetNoDelay (noDelay : bool)
  | SetReadBuffer (bytes : Z)
  | SetWriteBuffer (bytes : Z).

Section conn.
(** The operating system: the error ([None] is [nil]) a call on the
    connection returns, given the calls made on it before. *)
Context (sys : list sockcall → sockcall → option string).

(** One call on the connection: its error, and the calls made so far. *)
Definition call (c : sockcall) (made : list sockcall)
    : option string * list sockcall :=
  (sys made c, made ++ [c]).

(** [tcpTransport.applyOptions]: the transport it returns next to the error is
    always the receiver and is left out. *)
Definition applyOptions (tcpOptions : Options) (client : bool)
    (made : list sockcall) : option string * list sockcall :=
  match call (SetKeepAlive (KeepAlive tcpOptions)) made with
  | (Some err, made) => (Some err, made)
  | (None, made) =>
  match call (SetKeepAlivePeriod (KeepAlivePeriod tcpOptions)) made with
  | (Some err, made) => (Some err, made)
  | (None, made) =>
  match call (SetLinger (Linger tcpOptions)) made with
  | (Some err, made) => (Some err, made)
  | (None, made) =>
  match call (SetNoDelay (NoDelay tcpOptions)) made with
  | (Some err, made) => (Some err, made)
  | (None, made) =>
      if (0 <? SockBuf tcpOptions)%Z then
        match call (SetReadBuffer (SockBuf tcpOptions)) made with
        | (Some err, made) => (Some err, made)
        | (None, made) =>
        match call (SetWriteBuffer (SockBuf tcpOptions)) made with
        | (Some err, made) => (Some err, made)
        | (None, made) => (None, made)
        end
        end
      else (None, made)
  end
  end
  end
  end.

(** Making the calls of a list one after the other, up to the first that
    fails. *)
Fixpoint run (calls : list sockcall) (made : list sockcall)
    : option string * list sockcall :=
  match calls with
  | [] => (None, made)
  | c :: rest =>
      match sys made c with
      | Some err => (Some err, made ++ [c])
      | None => run rest (made ++ [c])
      end
  end.
End conn.

(** The settings [applyOptions] is after, in the order of its calls. *)
Definition wanted (tcpOptions : Options) : list sockcall :=
  [SetKeepAlive (KeepAlive tcpOptions);
   SetKeepAlivePeriod (KeepAlivePeriod tcpOptions);
   SetLinger (Linger tcpOptions);
   SetNoDelay (NoDelay tcpOptions)]
  ++ (if (0 <? SockBuf tcpOptions)%Z
      then [SetReadBuffer (SockBuf tcpOptions); SetWriteBuffer (SockBuf tcpOptions)]
      else []).

Section acceptor.
(** [*net.TCPListener] values and their [Close]. *)
Context {TCPListener : Type}.
Context (listener_Close : TCPListener → option string).

(** [tcpAcceptor] *)
Record tcpAcceptor := mkAcceptor {
  listener : option TCPListener;
  options : Options;
}.

(** [tcpAcceptor.Close]: the error, the acceptor afterwards (the deferred
    function has run) and the listeners closed so far, oldest first. *)
Definition Close (t : tcpAcceptor) (closed : list TCPListener)
    : option string * tcpAcceptor * list TCPListener :=
  match listener t with
  | Some l => (listener_Close l, mkAcceptor None (options t), closed ++ [l])
  | None => (None, t, closed)
  end.
End acceptor.

(** A system that refuses every [SetLinger], for the examples. *)
Definition refuse_linger (made : list sockcall) (c : sockcall) : option string :=
  match c with
  | SetLinger _ => Some "setsockopt: invalid argument"
  | _ => None
  end.

End Tcp.

(** * bootstrap.go: the registry of listeners *)

Module Registry.
Import Bootstrap.

Section bootstrap.
Context {Option Options Acceptor : Type}.
(** [acceptor.Close()] of the transport package: the error it returns, given
    the acceptors closed before (an acceptor may answer a second [Close]
    differently). *)
Context (acceptor_Close : list Acceptor → Acceptor → option string).

(** What the methods below touch of a [bootstrap]: the registry
    [bs.listeners] (a [sync.Map] from a url to a [*listener]), the [listener]
    structs allocated so far, whether [bootstrapCancel] has been called, and
    the acceptors [Close] has been called on so far, oldest first. *)
Record bootstrap := mkBootstrap {
  listeners : gmap string loc;
  heap : gmap loc (@listener Option Options Acceptor);
  cancelled : bool;
  closed : list Acceptor;
}.

(** [Listen]: the new listener and the bootstrap afterwards. *)
Definition Listen (url : string) (option : list Option) (bs : bootstrap)
    : loc * bootstrap :=
  let l := fresh (dom (heap bs)) in
  (l, mkBootstrap (<[url := l]> (listeners bs))
        (<[l := mkListener url option None None]> (heap bs))
        (cancelled bs) (closed bs)).

(** [removeListener] *)
Definition removeListener (url : string) (bs : bootstrap) : bootstrap :=
  mkBootstrap (delete url (listeners bs)) (heap bs) (cancelled bs) (closed bs).

(** [listener.Close]: its error and the bootstrap afterwards. *)
Definition Close (l : loc) (bs : bootstrap) : option string * bootstrap :=
  match heap bs !! l with
  | Some this =>
      match acceptor this with
      | Some a =>
          let bs := removeListener (Bootstrap.url this) bs in
          (acceptor_Close (closed bs) a,
           mkBootstrap (listeners bs) (heap bs) (cancelled bs) (closed bs ++ [a]))
      | None => (None, bs)
      end
  | None => (None, bs)
  end.

(** [Shutdown].  [Range] calls the function once for every entry of the
    registry.  [Listen] is the only writer of the registry and files every
    listener under its own url, so a call deletes no entry but its own, and
    the entries visited are those present when [Range] starts. *)
Definition Shutdown (bs : bootstrap) : bootstrap :=
  let bs := mkBootstrap (listeners bs) (heap bs) true (closed bs) in
  foldl (λ bs entry, (Close entry.2 bs).2) bs (map_to_list (listeners bs)).

(** Every entry of the registry is a listener made for the url it is filed
    under. *)
Definition registry_ok (bs : bootstrap) : Prop :=
  ∀ url l, listeners bs !! url = Some l →
    ∃ this, heap bs !! l = Some this ∧ Bootstrap.url this = url.

(** The acceptor of the listener at an address, if it has one. *)
Definition acceptor_at (bs : bootstrap) (l : loc) : option Acceptor :=
  heap bs !! l ≫= acceptor.
End bootstrap.

End Registry.

(** * bootstrap.go: what the accept loop of [Sync] leaves behind *)

Module BootstrapTrace.
Import Bootstrap.

(** The events of the iterations [k .. k+n-1] of the accept loop when each
    of them accepts a transport and serves it. *)
Definition serving {Options Acceptor Transport : Type}
    (Accept : Acceptor → nat → Transport * option string)
    (a : Acceptor) (k n : nat) : list (event Options Acceptor Transport) :=
  flat_map (λ i, [Accepted a; Served (Accept a i).1]) (seq k n).

End BootstrapTrace.

Module PipelineFacts.
Import Pipeline.

Lemma wrap_int_small z : (int_min ≤ z ≤ int_max)%Z → wrap_int z = z.
Proof.
  unfold wrap_int, int_min, int_max. intros Hz.
  rewrite Z.mod_small; lia.
Qed.

(** Below [int_max], [k] increments add [k]. *)
Lemma iter_incr_small k z :
  (int_min ≤ z)%Z → (z + Z.of_nat k ≤ int_max)%Z →
  Nat.iter k incr z = (z + Z.of_nat k)%Z.
Proof.
  induction k as [|k IH]; intros Hlo Hhi; simpl.
  - lia.
  - rewrite IH by lia. unfold incr. rewrite wrap_int_small; lia.
Qed.

(** An increment after a wrap-around is the wrap-around of the sum. *)
Lemma wrap_int_incr z : incr (wrap_int z) = wrap_int (z + 1).
Proof.
  unfold incr, wrap_int. f_equal.
  replace ((z + 2 ^ 63) mod 2 ^ 64 - 2 ^ 63 + 1 + 2 ^ 63)%Z
    with ((z + 2 ^ 63) mod 2 ^ 64 + 1)%Z by lia.
  rewrite Zplus_mod_idemp_l. f_equal. lia.
Qed.

(** [k] increments of an [int] add [k] modulo 2^64. *)
Lemma iter_incr_wrap k z :
  (int_min ≤ z ≤ int_max)%Z →
  Nat.iter k incr z = wrap_int (z + Z.of_nat k).
Proof.
  intros Hz. induction k as [|k IH]; simpl.
  - by rewrite Z.add_0_r, wrap_int_small.
  - rewrite IH, wrap_int_incr. f_equal. lia.
Qed.

Lemma wrap_int_pred z : (2 ≤ z ≤ int_max)%Z → wrap_int (z - 1) = (z - 1)%Z.
Proof. intros Hz. apply wrap_int_small. unfold int_min, int_max in *. lia. Qed.

Lemma first_or_app l1 l2 d : first_or (l1 ++ l2) d = first_or l1 (first_or l2 d).
Proof. by destruct l1. Qed.

Lemma last_or_cons d x l : last_or d (x :: l) = last_or (Some x.1) l.
Proof.
  unfold last_or. destruct l as [|y l]; [done|].
  rewrite last_cons_cons.
  destruct (last (y :: l)) eqn:E; [done|]. by apply last_None in E.
Qed.

Lemma last_or_snoc d l x : last_or d (l ++ [x]) = Some x.1.
Proof. unfold last_or. by rewrite last_snoc. Qed.

Lemma linked_app σ p l1 l2 q :
  linked σ p (l1 ++ l2) q ↔
  linked σ p l1 (first_or l2 q) ∧ linked σ (last_or p l1) l2 q.
Proof.
  revert p. induction l1 as [|x l1 IH]; intros p; simpl.
  - unfold last_or; simpl. tauto.
  - rewrite first_or_app, last_or_cons, IH. tauto.
Qed.

Lemma linked_frame σ σ' p l q :
  (∀ a, a ∈ l.*1 → σ' !! a = σ !! a) →
  linked σ p l q → linked σ' p l q.
Proof.
  revert p. induction l as [|x l IH]; intros p Hag; simpl; [done|].
  intros [Hx Hl]. split.
  - rewrite Hag; [done|]. apply list_elem_of_here.
  - apply IH; [|done]. intros a Ha. apply Hag. by apply list_elem_of_further.
Qed.

Lemma linked_lookup σ p l q a :
  linked σ p l q → a ∈ l.*1 → is_Some (σ !! a).
Proof.
  revert p. induction l as [|x l IH]; intros p; simpl.
  - intros _ Ha. by apply elem_of_nil in Ha.
  - intros [Hx Hl] Ha.
    apply elem_of_cons in Ha as [->|Ha]; [by eexists|]. by eapply IH.
Qed.

Lemma linked_fresh σ p l q :
  linked σ p l q → fresh (dom σ) ∉ l.*1.
Proof.
  intros Hl Hin. apply (linked_lookup _ _ _ _ _ Hl) in Hin.
  apply elem_of_dom in Hin. by apply is_fresh in Hin.
Qed.

(** Splicing a new node [n] between two neighbours [x] and [y]. *)
Lemma linked_splice σ σ' l1 x y l2 n h :
  linked σ None (l1 ++ x :: y :: l2) None →
  NoDup (l1 ++ x :: y :: l2).*1 →
  n ∉ (l1 ++ x :: y :: l2).*1 →
  σ' !! n = Some (mkContext h (Some x.1) (Some y.1)) →
  σ' !! x.1 = set_next (Some n) <$> σ !! x.1 →
  σ' !! y.1 = set_prev (Some n) <$> σ !! y.1 →
  (∀ a, a ≠ n → a ≠ x.1 → a ≠ y.1 → σ' !! a = σ !! a) →
  linked σ' None (l1 ++ x :: (n, h) :: y :: l2) None.
Proof.
  intros Hl Hnd Hn Hn' Hx' Hy' Hother.
  rewrite !fmap_app, !fmap_cons in Hnd, Hn.
  apply NoDup_app in Hnd as (Hnd1 & Hdisj & Hnd2).
  apply NoDup_cons in Hnd2 as [Hxy Hnd2].
  apply NoDup_cons in Hnd2 as [Hy2 Hnd2].
  apply linked_app in Hl as [Hl1 Hl2]. simpl in Hl1, Hl2.
  destruct Hl2 as (Hx & Hy & Hl2).
  apply linked_app. simpl. split_and!.
  - eapply linked_frame; [|exact Hl1].
    intros a Ha. apply Hother.
    + intros ->. apply Hn, elem_of_app. by left.
    + intros ->. apply (Hdisj _ Ha), list_elem_of_here.
    + intros ->. apply (Hdisj _ Ha), list_elem_of_further, list_elem_of_here.
  - rewrite Hx', Hx. done.
  - done.
  - rewrite Hy', Hy. done.
  - eapply linked_frame; [|exact Hl2].
    intros a Ha. apply Hother.
    + intros ->. apply Hn, elem_of_app. right.
      by apply list_elem_of_further, list_elem_of_further.
    + intros ->. apply Hxy. by apply list_elem_of_further.
    + by intros ->.
Qed.

Lemma chain_neighbours s l1 x y l2 :
  is_chain s (l1 ++ x :: y :: l2) →
  ctxs s !! x.1 = Some (mkContext x.2 (last_or None l1) (Some y.1))
  ∧ ctxs s !! y.1 = Some (mkContext y.2 (Some x.1) (first_or l2 None))
  ∧ x.1 ≠ y.1
  ∧ fresh (dom (ctxs s)) ≠ x.1
  ∧ fresh (dom (ctxs s)) ≠ y.1.
Proof.
  intros [Hl Hnd _ _ _].
  pose proof (linked_fresh _ _ _ _ Hl) as Hf.
  rewrite fmap_app in Hnd, Hf. simpl in Hnd, Hf.
  apply NoDup_app in Hnd as (_ & _ & Hnd).
  apply NoDup_cons in Hnd as [Hxy _].
  apply linked_app in Hl as [_ Hl]. simpl in Hl.
  destruct Hl as (Hx & Hy & _).
  split_and!; [done|done|..].
  - intros E. apply Hxy. rewrite E. apply list_elem_of_here.
  - intros E. apply Hf. rewrite E. apply elem_of_app. right. apply list_elem_of_here.
  - intros E. apply Hf. rewrite E. apply elem_of_app. right.
    apply list_elem_of_further, list_elem_of_here.
Qed.

Lemma chain_ends s l :
  is_chain s l →
  ∃ x mid t, l = x :: mid ++ [t] ∧ head (pl s) = x.1 ∧ tail (pl s) = t.1.
Proof.
  intros [_ _ Hhd Hlast Hlen].
  destruct l as [|x l]; [simpl in Hlen; lia|].
  destruct (decide (l = [])) as [->|Hne]; [simpl in Hlen; lia|].
  apply exists_last in Hne as (mid & t & ->).
  exists x, mid, t. split; [done|].
  simpl in Hhd. rewrite fmap_cons, fmap_app in Hlast. simpl in Hlast.
  rewrite app_comm_cons, last_snoc in Hlast.
  split; congruence.
Qed.

Lemma is_chain_splice s s' l1 x y l2 h :
  is_chain s (l1 ++ x :: y :: l2) →
  head (pl s') = head (pl s) →
  tail (pl s') = tail (pl s) →
  ctxs s' !! fresh (dom (ctxs s)) = Some (mkContext h (Some x.1) (Some y.1)) →
  ctxs s' !! x.1 = set_next (Some (fresh (dom (ctxs s)))) <$> ctxs s !! x.1 →
  ctxs s' !! y.1 = set_prev (Some (fresh (dom (ctxs s)))) <$> ctxs s !! y.1 →
  (∀ a, a ≠ fresh (dom (ctxs s)) → a ≠ x.1 → a ≠ y.1 →
        ctxs s' !! a = ctxs s !! a) →
  is_chain s' (l1 ++ x :: (fresh (dom (ctxs s)), h) :: y :: l2).
Proof.
  intros [Hl Hnd Hhd Hlast Hlen] Hh Ht Hn Hx Hy Hother.
  pose proof (linked_fresh _ _ _ _ Hl) as Hf.
  constructor.
  - by eapply linked_splice.
  - rewrite fmap_app in Hnd, Hf |- *. simpl in Hnd, Hf |- *.
    set (n := fresh (dom (ctxs s))) in *.
    assert (l1.*1 ++ x.1 :: n :: y.1 :: l2.*1
            ≡ₚ n :: (l1.*1 ++ x.1 :: y.1 :: l2.*1)) as ->.
    { rewrite (cons_middle x.1 l1.*1 (n :: _)), app_assoc.
      rewrite <- Permutation_middle. by rewrite <- app_assoc. }
    by apply NoDup_cons.
  - rewrite Hh, <- Hhd. by destruct l1.
  - rewrite Ht, <- Hlast. rewrite !fmap_app. simpl.
    by rewrite !(last_app_cons _ _ _), !last_cons_cons.
  - rewrite length_app in Hlen |- *. simpl in Hlen |- *. lia.
Qed.

Ltac run_store :=
  repeat first
    [ rewrite lookup_insert_eq
    | rewrite lookup_insert_ne by congruence
    | match goal with H : ctxs _ !! _ = Some _ |- _ => rewrite H end
    | progress simpl ].

Ltac run_method :=
  unfold mbind, M_bind, bind, get, deref, alloc, update, incr_size; simpl.

Ltac splice_done Hc l1 :=
  eexists; split; [reflexivity|]; split;
  [ apply (is_chain_splice _ _ l1); [exact Hc|done|done|..];
    [by run_store|by run_store|by run_store|intros a ? ? ?; by run_store]
  | by unfold grown ].

Lemma addLast_spec s l1 x t h :
  is_chain s (l1 ++ [x; t]) →
  ∃ s', addLast h s = (Return tt, s')
    ∧ is_chain s' (l1 ++ [x; (fresh (dom (ctxs s)), h); t])
    ∧ grown s s' 1.
Proof.
  intros Hc. destruct (chain_neighbours _ _ _ _ _ Hc) as (Hx & Ht & Hxt & Hnx & Hnt).
  assert (tail (pl s) = t.1) as Htl.
  { destruct Hc as [_ _ _ Hlast _]. rewrite fmap_app in Hlast. simpl in Hlast.
    rewrite (last_app_cons _ _ _), last_cons_cons in Hlast. simpl in Hlast.
    congruence. }
  unfold addLast. run_method. rewrite Htl. run_store.
  splice_done Hc l1.
Qed.

Lemma addFirst_spec s x y l2 h :
  is_chain s (x :: y :: l2) →
  ∃ s', addFirst h s = (Return tt, s')
    ∧ is_chain s' (x :: (fresh (dom (ctxs s)), h) :: y :: l2)
    ∧ grown s s' 1.
Proof.
  intros Hc.
  destruct (chain_neighbours _ [] _ _ _ Hc) as (Hx & Hy & Hxy & Hnx & Hny).
  assert (head (pl s) = x.1) as Hhd.
  { destruct Hc as [_ _ Hhd _ _]. simpl in Hhd. congruence. }
  unfold addFirst. run_method. rewrite Hhd. run_store.
  splice_done Hc (@nil (loc * Handler)).
Qed.

Lemma grown_step s s1 s2 k : grown s s1 1 → grown s1 s2 k → grown s s2 (S k).
Proof.
  unfold grown. intros (-> & -> & -> & -> & E1) (-> & -> & -> & -> & ->).
  split_and!; try done.
  rewrite E1. symmetry. exact (Nat.iter_succ_r k Z incr (size (pl s))).
Qed.

Lemma grown_refl s : grown s s 0.
Proof. by unfold grown. Qed.

(** The insertion loop of [AddHandler], started at a node [x] that has a
    successor [y]: the new nodes end up between [x] and [y], in the order of
    the batch. *)
Lemma insert_after_spec hs : ∀ s l1 x y l2,
  is_chain s (l1 ++ x :: y :: l2) →
  ∃ s' news,
    insert_after (Some x.1) hs s = (Return tt, s')
    ∧ length news = length hs
    ∧ is_chain s' (l1 ++ x :: zip news hs ++ y :: l2)
    ∧ grown s s' (length hs).
Proof.
  induction hs as [|h hs IH]; intros s l1 x y l2 Hc.
  - exists s, []. simpl. split_and!; done || apply grown_refl.
  - destruct (chain_neighbours _ _ _ _ _ Hc) as (Hx & Hy & Hxy & Hnx & Hny).
    assert (∃ s1, is_chain s1 ((l1 ++ [x]) ++ (fresh (dom (ctxs s)), h) :: y :: l2)
                  ∧ grown s s1 1
                  ∧ insert_after (Some x.1) (h :: hs) s
                    = insert_after (Some (fresh (dom (ctxs s)))) hs s1)
      as (s1 & Hc1 & Hg1 & ->).
    { simpl. run_method. run_store.
      eexists. split; [|split; [|reflexivity]].
      - rewrite <- app_assoc. simpl.
        apply (is_chain_splice _ _ l1); [exact Hc|done|done|..];
          [by run_store|by run_store|by run_store|intros a ? ? ?; by run_store].
      - by unfold grown. }
    destruct (IH _ _ _ _ _ Hc1) as (s' & news & Hrun & Hlen & Hc' & Hg').
    exists s', (fresh (dom (ctxs s)) :: news). simpl in *.
    split_and!; [done|by rewrite Hlen| |by eapply grown_step].
    by rewrite <- app_assoc in Hc'.
Qed.

(** The loop of [AddLast]: the new nodes end up right before the tail, in the
    order of the batch. *)
Lemma for_each_addLast_spec hs : ∀ s l1 x t,
  is_chain s (l1 ++ [x; t]) →
  ∃ s' news,
    for_each addLast hs s = (Return tt, s')
    ∧ length news = length hs
    ∧ is_chain s' (l1 ++ x :: zip news hs ++ [t])
    ∧ grown s s' (length hs).
Proof.
  induction hs as [|h hs IH]; intros s l1 x t Hc.
  - exists s, []. simpl. split_and!; done || apply grown_refl.
  - destruct (addLast_spec _ _ _ _ h Hc) as (s1 & Hrun1 & Hc1 & Hg1).
    rewrite (cons_middle x l1), app_assoc in Hc1.
    destruct (IH _ _ _ _ Hc1) as (s' & news & Hrun & Hlen & Hc' & Hg').
    exists s', (fresh (dom (ctxs s)) :: news).
    split_and!; [|by simpl; rewrite Hlen| |by eapply grown_step].
    + simpl. unfold mbind, M_bind, bind. by rewrite Hrun1.
    + by rewrite <- app_assoc in Hc'.
Qed.

(** The loop of [AddFirst]: every handler goes right after the head, so the
    batch ends up in reverse. *)
Lemma for_each_addFirst_spec hs : ∀ s x y l2,
  is_chain s (x :: y :: l2) →
  ∃ s' news,
    for_each addFirst hs s = (Return tt, s')
    ∧ length news = length hs
    ∧ is_chain s' (x :: reverse (zip news hs) ++ y :: l2)
    ∧ grown s s' (length hs).
Proof.
  induction hs as [|h hs IH]; intros s x y l2 Hc.
  - exists s, []. simpl. split_and!; done || apply grown_refl.
  - destruct (addFirst_spec _ _ _ _ h Hc) as (s1 & Hrun1 & Hc1 & Hg1).
    destruct (IH _ _ _ _ Hc1) as (s' & news & Hrun & Hlen & Hc' & Hg').
    exists s', (fresh (dom (ctxs s)) :: news).
    split_and!; [|by simpl; rewrite Hlen| |by eapply grown_step].
    + simpl. unfold mbind, M_bind, bind. by rewrite Hrun1.
    + simpl. rewrite reverse_cons, <- app_assoc. done.
Qed.

(** *** [checkHandler] *)

Lemma recognized_false h : recognized h = false ↔ ∀ c, implements h c = false.
Proof.
  unfold recognized. split.
  - intros H c. destruct c;
      repeat match type of H with
             | (if ?b then _ else _) = _ => destruct b eqn:?; try done
             end.
  - intros H. by rewrite !H.
Qed.

Lemma checkHandler_from_ok hs : ∀ i s,
  Forall (λ h, recognized h = true) hs →
  checkHandler_from i hs s = (Return tt, s).
Proof.
  induction hs as [|h hs IH]; intros i s Hall; [done|].
  apply Forall_cons in Hall as [Hh Hall].
  simpl. unfold mbind, M_bind, bind. rewrite Hh. simpl. by apply IH.
Qed.

Lemma checkHandler_from_bad hs : ∀ i s k h,
  hs !! k = Some h →
  recognized h = false →
  Forall (λ h, recognized h = true) (take k hs) →
  checkHandler_from i hs s
  = (Panicked (ConfigError (unrecognized_msg (i + Z.of_nat k) h)), s).
Proof.
  induction hs as [|h0 hs IH]; intros i s k h Hk Hbad Hgood; [done|].
  destruct k as [|k]; simpl in Hk.
  - injection Hk as ->. simpl. unfold mbind, M_bind, bind. rewrite Hbad. simpl.
    by rewrite Z.add_0_r.
  - simpl in Hgood. apply Forall_cons in Hgood as [Hh0 Hgood].
    simpl. unfold mbind, M_bind, bind. rewrite Hh0. simpl.
    rewrite (IH _ _ k h) by done.
    by replace (i + 1 + Z.of_nat k)%Z with (i + Z.of_nat (S k))%Z by lia.
Qed.

(** [checkHandler] never touches the state. *)
Lemma checkHandler_from_state hs : ∀ i s, (checkHandler_from i hs s).2 = s.
Proof.
  induction hs as [|h hs IH]; intros i s; [done|].
  simpl. unfold mbind, M_bind, bind. destruct (recognized h); simpl; [|done].
  specialize (IH (i + 1)%Z s). by destruct (checkHandler_from (i + 1) hs s) as [[|] ?].
Qed.

(** *** Walking the chain *)

Lemma walk_spec s k : ∀ l p q x,
  linked (ctxs s) p l q →
  l !! k = Some x →
  walk k (first_or l q) s = (Return (Some x.1), s).
Proof.
  induction k as [|k IH]; intros l p q x Hl Hk; destruct l as [|y l]; try done.
  - simpl in Hk. injection Hk as ->. done.
  - simpl in Hk, Hl. destruct Hl as [Hy Hl].
    simpl. unfold mbind, M_bind, bind, deref. rewrite Hy. simpl.
    by eapply IH.
Qed.

(** *** The constructor *)

Lemma NewPipelineWith_chain :
  is_chain NewPipelineWith [(1%positive, headHandler); (2%positive, tailHandler)].
Proof.
  constructor; simpl; try done.
  by apply (bool_decide_eq_true_1 (NoDup [1%positive; 2%positive])).
Qed.

Lemma NewPipelineWith_invariant_with :
  invariant_with NewPipelineWith
    [(1%positive, headHandler); (2%positive, tailHandler)].
Proof. split_and!; [apply NewPipelineWith_chain|done|done]. Qed.

(** *** The exported methods *)

Lemma first_offender hs :
  ¬ valid_batch hs →
  ∃ k h, hs !! k = Some h ∧ recognized h = false ∧ valid_batch (take k hs).
Proof.
  induction hs as [|h0 hs IH]; intros Hbad.
  - by destruct Hbad.
  - destruct (recognized h0) eqn:E.
    + destruct IH as (k & h & Hk & Hh & Hpre).
      { intros Hall. apply Hbad. by constructor. }
      exists (S k), h. split_and!; [done|done|]. simpl. by constructor.
    + exists 0, h0. split_and!; [done|done|]. simpl. constructor.
Qed.

Lemma AddLast_valid hs s : valid_batch hs → AddLast hs s = for_each addLast hs s.
Proof.
  intros Hv. unfold AddLast, checkHandler, mbind, M_bind, bind.
  by rewrite checkHandler_from_ok.
Qed.

Lemma AddFirst_valid hs s : valid_batch hs → AddFirst hs s = for_each addFirst hs s.
Proof.
  intros Hv. unfold AddFirst, checkHandler, mbind, M_bind, bind.
  by rewrite checkHandler_from_ok.
Qed.

(** Adding a valid batch at the tail in one call or handler by handler. *)
Lemma AddLast_one_at_a_time h hs s :
  valid_batch (h :: hs) →
  (AddLast [h];; AddLast hs) s = AddLast (h :: hs) s.
Proof.
  intros Hv. pose proof Hv as Hv'. apply Forall_cons in Hv' as [Hh Hhs].
  unfold mbind, M_bind, bind.
  rewrite !AddLast_valid by (done || by repeat constructor).
  simpl. unfold mbind, M_bind, bind.
  destruct (addLast h s) as [[[]|v] s1]; simpl; [|done].
  by rewrite AddLast_valid.
Qed.

(** A batch with an unrecognized handler is refused by all three methods,
    before anything is touched. *)
Lemma batch_refused hs s k h pos :
  hs !! k = Some h →
  recognized h = false →
  valid_batch (take k hs) →
  AddFirst hs s = (Panicked (ConfigError (unrecognized_msg (Z.of_nat k) h)), s)
  ∧ AddLast hs s = (Panicked (ConfigError (unrecognized_msg (Z.of_nat k) h)), s)
  ∧ AddHandler pos hs s
    = (Panicked (ConfigError (unrecognized_msg (Z.of_nat k) h)), s).
Proof.
  intros Hk Hh Hpre.
  unfold AddFirst, AddLast, AddHandler, checkHandler, mbind, M_bind, bind.
  by rewrite (checkHandler_from_bad hs 0 s k h).
Qed.

Lemma AddLast_chain s front t hs :
  is_chain s (front ++ [t]) →
  valid_batch hs →
  ∃ s' news,
    AddLast hs s = (Return tt, s')
    ∧ length news = length hs
    ∧ is_chain s' (front ++ zip news hs ++ [t])
    ∧ grown s s' (length hs).
Proof.
  intros Hc Hv. rewrite AddLast_valid by done.
  destruct front as [|x front _] using rev_ind.
  - destruct Hc as [_ _ _ _ Hlen]. simpl in Hlen. lia.
  - rewrite <- app_assoc in Hc. simpl in Hc.
    destruct (for_each_addLast_spec hs _ _ _ _ Hc) as (s' & news & ? & ? & ? & ?).
    exists s', news. rewrite <- app_assoc. simpl. done.
Qed.

Lemma AddFirst_chain s x rest hs :
  is_chain s (x :: rest) →
  valid_batch hs →
  ∃ s' news,
    AddFirst hs s = (Return tt, s')
    ∧ length news = length hs
    ∧ is_chain s' (x :: reverse (zip news hs) ++ rest)
    ∧ grown s s' (length hs).
Proof.
  intros Hc Hv. rewrite AddFirst_valid by done.
  destruct rest as [|y rest].
  - destruct Hc as [_ _ _ _ Hlen]. simpl in Hlen. lia.
  - by apply for_each_addFirst_spec.
Qed.

Lemma chain_head_lookup s l :
  is_chain s l → ∃ x, l !! 0 = Some x ∧ x.1 = head (pl s).
Proof.
  intros [_ _ Hhd _ _]. destruct l as [|x l]; [done|].
  exists x. simpl in *. split; congruence.
Qed.

Lemma chain_handler_at s l k x :
  is_chain s l → l !! k = Some x → handler_at s x.1 = Some x.2.
Proof.
  intros Hc Hk. unfold handler_at.
  apply list_elem_of_split_length in Hk as (l1 & l2 & -> & _).
  destruct Hc as [Hl _ _ _ _]. apply linked_app in Hl as [_ [Hx _]].
  by rewrite Hx.
Qed.

(** [ContextAt] on an index of the chain. *)
Lemma ContextAt_chain s l k x :
  invariant_with s l →
  l !! k = Some x →
  ContextAt (Z.of_nat k) s = (Return (Some x.1), s)
  ∧ handler_at s x.1 = Some x.2.
Proof.
  intros (Hc & Hsz & _) Hk.
  pose proof (lookup_lt_Some _ _ _ Hk) as Hlt.
  destruct (chain_head_lookup _ _ Hc) as (x0 & Hx0 & Hhd).
  split.
  - unfold ContextAt, mbind, M_bind, bind, get.
    rewrite bool_decide_eq_false_2 by lia.
    rewrite bool_decide_eq_false_2 by lia. simpl.
    rewrite Nat2Z.id.
    replace (Some (head (pl s))) with (first_or l None)
      by (destruct l; simpl in *; congruence).
    eapply walk_spec; [apply Hc|done].
  - by eapply chain_handler_at.
Qed.

Lemma AddHandler_chain s l position hs :
  invariant_with s l →
  valid_batch hs →
  (position < size (pl s))%Z →
  ∃ s' news,
    AddHandler position hs s = (Return tt, s')
    ∧ length news = length hs
    ∧ is_chain s' (take (insertion_index (length l) position) l
                   ++ zip news hs
                   ++ drop (insertion_index (length l) position) l)
    ∧ grown s s' (length hs).
Proof.
  intros (Hc & Hsz & Hmax) Hv Hpos.
  pose proof (chain_two _ _ Hc) as Hlen.
  unfold AddHandler, checkHandler, mbind, M_bind, bind, get, AssertIf, insertion_index.
  rewrite checkHandler_from_ok by done. simpl.
  rewrite bool_decide_eq_false_2 by lia. simpl.
  rewrite wrap_int_pred by lia.
  destruct (decide (position = -1 ∨ position = Z.of_nat (length l) - 1)%Z) as [Hlast|Hmid].
  - rewrite (bool_decide_eq_true_2 (_ ∨ _)) by done.
    replace (bool_decide (-1 = position)%Z || bool_decide (position = size (pl s) - 1)%Z)
      with true.
    2:{ symmetry. apply orb_true_iff. rewrite !bool_decide_eq_true. lia. }
    destruct l as [|t front _] using rev_ind; [simpl in Hlen; lia|].
    rewrite length_app. simpl.
    replace (length front + 1 - 1) with (length front) by lia.
    rewrite take_app_length, drop_app_length.
    by apply AddLast_chain.
  - rewrite (bool_decide_eq_false_2 (_ ∨ _)) by done.
    rewrite !bool_decide_eq_false_2 by lia. simpl.
    assert (S (Z.to_nat position) < length l) as Hk by lia.
    destruct (lookup_lt_is_Some_2 l (Z.to_nat position)) as [x Hx]; [lia|].
    destruct (lookup_lt_is_Some_2 l (S (Z.to_nat position))) as [y Hy]; [lia|].
    destruct (chain_head_lookup _ _ Hc) as (x0 & Hx0 & Hhd).
    replace (Some (head (pl s))) with (first_or l None)
      by (destruct l; simpl in *; congruence).
    rewrite (walk_spec s _ l None None x) by (apply Hc || done).
    destruct (insert_after_spec hs s (take (Z.to_nat position) l) x y
                (drop (S (S (Z.to_nat position))) l))
      as (s' & news & Hrun & Hnews & Hc' & Hg).
    { by rewrite <- (drop_S _ _ _ Hy), (take_drop_middle _ _ _ Hx). }
    exists s', news. split_and!; [done..| |done].
    by rewrite (take_S_r _ _ _ Hx), (drop_S _ _ _ Hy), <- !app_assoc.
Qed.

(** *** Back-links *)

Lemma zip_snd_same_length (news : list positive) (hs : list Handler) :
  length news = length hs → (zip news hs).*2 = hs.
Proof. intros H. apply snd_zip. lia. Qed.

Lemma linked_at σ l : ∀ p q i x,
  linked σ p l q →
  l !! i = Some x →
  σ !! x.1
  = Some (mkContext x.2
            (match i with O => p | S j => fst <$> l !! j end)
            (match l !! S i with Some y => Some y.1 | None => q end)).
Proof.
  induction l as [|y l IH]; intros p q i x Hl Hi; [done|].
  simpl in Hl. destruct Hl as [Hy Hl].
  destruct i as [|i]; simpl in Hi.
  - injection Hi as ->. rewrite Hy. by destruct l.
  - rewrite (IH _ _ _ _ Hl Hi). f_equal. f_equal.
    destruct i; simpl; [done|]. done.
Qed.

Lemma chain_back_links s l : is_chain s l → back_links_consistent s l.
Proof.
  intros [Hl Hnd _ _ _] a b ca cb Ha Hb Hca Hcb.
  apply list_elem_of_lookup in Ha as [i Hi], Hb as [j Hj].
  rewrite list_lookup_fmap in Hi, Hj.
  destruct (l !! i) as [x|] eqn:Hx; [|done].
  destruct (l !! j) as [y|] eqn:Hy; [|done].
  simpl in Hi, Hj. injection Hi as <-. injection Hj as <-.
  rewrite (linked_at _ _ _ _ _ _ Hl Hx) in Hca.
  rewrite (linked_at _ _ _ _ _ _ Hl Hy) in Hcb.
  injection Hca as <-. injection Hcb as <-. simpl.
  assert (∀ k z, l !! k = Some z → z.1 = y.1 → k = j) as Huniq_y.
  { intros k z Hk Hz. eapply (NoDup_lookup _ _ _ _ Hnd).
    - rewrite list_lookup_fmap, Hk. simpl. by rewrite Hz.
    - by rewrite list_lookup_fmap, Hy. }
  assert (∀ k z, l !! k = Some z → z.1 = x.1 → k = i) as Huniq_x.
  { intros k z Hk Hz. eapply (NoDup_lookup _ _ _ _ Hnd).
    - rewrite list_lookup_fmap, Hk. simpl. by rewrite Hz.
    - by rewrite list_lookup_fmap, Hx. }
  split.
  - destruct (l !! S i) as [z|] eqn:Hz; [|done].
    intros [= Hzy]. rewrite <- (Huniq_y _ _ Hz Hzy). by rewrite Hx.
  - destruct j as [|j]; [done|].
    destruct (l !! j) as [z|] eqn:Hz; [|done].
    simpl. intros [= Hzx]. rewrite (Huniq_x _ _ Hz Hzx) in Hy. by rewrite Hy.
Qed.

(** *** Batches *)

Lemma offender_not_valid hs :
  Exists (λ h, ∀ c, implements h c = false) hs → ¬ valid_batch hs.
Proof.
  intros Hex Hv. apply Exists_exists in Hex as (h & Hin & Hnone).
  rewrite Forall_forall in Hv. specialize (Hv h Hin).
  apply recognized_false in Hnone. congruence.
Qed.

Lemma length_inserted {A} (l m : list A) i :
  length (take i l ++ m ++ drop i l) = length l + length m.
Proof.
  rewrite !length_app, length_take, length_drop. lia.
Qed.

Lemma AddHandler_out_of_range s hs position :
  valid_batch hs →
  (size (pl s) ≤ position)%Z →
  AddHandler position hs s
  = (Panicked (ConfigError (invalid_position_msg position)), s).
Proof.
  intros Hv Hpos.
  unfold AddHandler, checkHandler, mbind, M_bind, bind, get, AssertIf.
  rewrite checkHandler_from_ok by done. simpl.
  by rewrite bool_decide_eq_true_2 by lia.
Qed.

(** What the three methods do with a valid batch. *)
Lemma valid_batch_spliced s hs position l :
  valid_batch hs →
  invariant_with s l →
  (∃ s' news,
     AddFirst hs s = (Return tt, s')
     ∧ length news = length hs
     ∧ is_chain s' (take 1 l ++ reverse (zip news hs) ++ drop 1 l)
     ∧ size (pl s') = Nat.iter (length hs) incr (size (pl s)))
  ∧ (∃ s' news,
       AddLast hs s = (Return tt, s')
       ∧ length news = length hs
       ∧ is_chain s' (take (length l - 1) l ++ zip news hs
                      ++ drop (length l - 1) l)
       ∧ size (pl s') = Nat.iter (length hs) incr (size (pl s)))
  ∧ ((position < size (pl s))%Z →
     ∃ s' news,
       AddHandler position hs s = (Return tt, s')
       ∧ length news = length hs
       ∧ is_chain s' (take (insertion_index (length l) position) l
                      ++ zip news hs
                      ++ drop (insertion_index (length l) position) l)
       ∧ size (pl s') = Nat.iter (length hs) incr (size (pl s))).
Proof.
  intros Hv Hinv. pose proof Hinv as (Hc & Hsz & Hmax). split_and!.
  + destruct (chain_ends _ _ Hc) as (x & mid & t & -> & _ & _).
    destruct (AddFirst_chain s x (mid ++ [t]) hs Hc Hv)
      as (s' & news & ? & ? & ? & Hg).
    exists s', news. split_and!; try done. apply Hg.
  + destruct l as [|t front _] using rev_ind.
    { apply chain_two in Hc. simpl in Hc. lia. }
    destruct (AddLast_chain s front t hs Hc Hv) as (s' & news & ? & ? & ? & Hg).
    exists s', news. rewrite length_app. simpl.
    replace (length front + 1 - 1) with (length front) by lia.
    rewrite take_app_length, drop_app_length.
    split_and!; try done. apply Hg.
  + intros Hpos.
    destruct (AddHandler_chain s l position hs Hinv Hv Hpos)
      as (s' & news & ? & ? & ? & Hg).
    exists s', news. split_and!; try done. apply Hg.
Qed.

(** *** Event propagation *)

Lemma linked_path_next σ l : ∀ p, linked σ p l None → path next σ l.
Proof.
  induction l as [|x l IH]; intros p; simpl; [done|].
  intros [Hx Hl]. split; [by eexists|by eapply IH].
Qed.

Lemma linked_path_prev σ l : ∀ q, linked σ None l q → path prev σ (reverse l).
Proof.
  induction l as [|x l IH] using rev_ind; intros q Hl; [done|].
  apply linked_app in Hl as [Hl [Hx _]].
  rewrite reverse_snoc. simpl. split; [|by eapply IH].
  eexists. split_and!; [exact Hx|done|]. simpl.
  clear. destruct l as [|y l _] using rev_ind; [done|].
  by rewrite last_or_snoc, reverse_snoc.
Qed.

Section propagate.
Context (cap : capability) (act : Handler → Message → reaction)
        (onward : handlerContext → option loc)
        (σ : gmap loc handlerContext).

(** A traversal visits a non-empty prefix of the path. *)
Lemma propagate_prefix l : ∀ fuel m,
  path onward σ l →
  length l ≤ fuel →
  ∃ k, (l ≠ [] → 1 ≤ k)
       ∧ propagate cap act onward fuel σ (first_or l None) m = Some (take k l.*1).
Proof.
  induction l as [|x l IH]; intros fuel m Hp Hfuel.
  - exists 0. split; [by intros []|by destruct fuel].
  - simpl in Hp, Hfuel. destruct Hp as [(c & Hc & Hh & Hon) Hp].
    destruct fuel as [|fuel]; [lia|]. simpl. rewrite Hc, Hon.
    assert (∀ m', ∃ k, (x :: l ≠ [] → 1 ≤ k)
              ∧ (x.1 ::.) <$> propagate cap act onward fuel σ (first_or l None) m'
                = Some (take k (x.1 :: l.*1))) as Hfwd.
    { intros m'. destruct (IH fuel m' Hp) as (k & _ & Hk); [lia|].
      exists (S k). rewrite Hk. split; [lia|done]. }
    destruct (implements (handler c) cap); [|apply Hfwd].
    destruct (act (handler c) m); [|apply Hfwd].
    exists 1. split; [lia|]. simpl. by rewrite take_0.
Qed.

(** When no handler before the last one stops the event, every context of
    the path is visited. *)
Lemma propagate_full l : ∀ fuel m,
  path onward σ l →
  length l ≤ fuel →
  (∀ i x, l !! i = Some x → S i < length l → passes cap act x.2) →
  propagate cap act onward fuel σ (first_or l None) m = Some l.*1.
Proof.
  induction l as [|x l IH]; intros fuel m Hp Hfuel Hpass; [by destruct fuel|].
  simpl in Hp, Hfuel. destruct Hp as [(c & Hc & Hh & Hon) Hp].
  destruct fuel as [|fuel]; [lia|]. simpl. rewrite Hc, Hon.
  assert (∀ m', (x.1 ::.) <$> propagate cap act onward fuel σ (first_or l None) m'
                = Some (x.1 :: l.*1)) as Hfwd.
  { intros m'. rewrite IH; [done|done|lia|].
    intros i y Hy Hi. apply (Hpass (S i) y Hy). simpl. lia. }
  destruct (implements (handler c) cap) eqn:Hcap; [|apply Hfwd].
  destruct (act (handler c) m) eqn:Hact; [|apply Hfwd].
  destruct l as [|y l]; [done|].
  exfalso. apply (Hpass 0 x eq_refl) with (m := m); simpl; [lia|congruence..].
Qed.
End propagate.

End PipelineFacts.

(** * Specification of the pipeline *)

Module PipelineSpec.
Import Pipeline PipelineFacts.

(** C1. For every pipeline and message, [FireChannelRead] starts at the head
    sentinel and visits contexts in head-to-tail order (the visits are a
    non-empty prefix of the chain), and [FireChannelWrite] starts at the tail
    sentinel and visits contexts in tail-to-head order.  For the chain
    [A, B, C] of handlers that record and pass on, built on a fresh pipeline,
    a read visits [head, A, B, C, tail] and a write visits
    [tail, C, B, A, head]. *)
Theorem fire_directions s l fuel m A B C :
  is_chain s l →
  length l ≤ fuel →
  valid_batch [A; B; C] →
  Forall passes_reads [A; B; C] →
  Forall passes_writes [A; B; C] →
  l.*1 !! 0 = Some (head (pl s))
  ∧ (∃ k, 1 ≤ k ∧ FireChannelRead fuel m s = Some (take k l.*1))
  ∧ reverse l.*1 !! 0 = Some (tail (pl s))
  ∧ (∃ k, 1 ≤ k ∧ FireChannelWrite fuel m s = Some (take k (reverse l.*1)))
  ∧ ∃ s' a b c,
      AddLast [A; B; C] NewPipelineWith = (Return tt, s')
      ∧ handler_at s' (head (pl s')) = Some headHandler
      ∧ handler_at s' a = Some A
      ∧ handler_at s' b = Some B
      ∧ handler_at s' c = Some C
      ∧ handler_at s' (tail (pl s')) = Some tailHandler
      ∧ FireChannelRead 5 m s' = Some [head (pl s'); a; b; c; tail (pl s')]
      ∧ FireChannelWrite 5 m s' = Some [tail (pl s'); c; b; a; head (pl s')].
Proof.
  intros Hc Hfuel Hv Hr Hw.
  assert (∀ s l, is_chain s l →
            Some (head (pl s)) = first_or l None
            ∧ Some (tail (pl s)) = first_or (reverse l) None
            ∧ reverse l.*1 !! 0 = Some (tail (pl s))) as Hends.
  { clear. intros s l Hc. destruct (chain_ends _ _ Hc) as (x & mid & t & -> & -> & ->).
    rewrite reverse_cons, fmap_cons, fmap_app, reverse_cons, !reverse_app. done. }
  destruct (Hends _ _ Hc) as (Hhd & Htl & Hrev).
  assert (l ≠ []) as Hne.
  { intros ->. apply chain_two in Hc. simpl in Hc. lia. }
  split_and!.
  - apply Hc.
  - unfold FireChannelRead, HandleRead. rewrite Hhd.
    destruct (propagate_prefix InboundHandler on_read next (ctxs s) l fuel m)
      as (k & Hk & ->); [eapply linked_path_next, Hc|done|].
    exists k. split; [by apply Hk|done].
  - done.
  - unfold FireChannelWrite, HandleWrite. rewrite Htl.
    destruct (propagate_prefix OutboundHandler on_write prev (ctxs s) (reverse l) fuel m)
      as (k & Hk & ->); [eapply linked_path_prev, Hc|by rewrite length_reverse|].
    exists k. split; [|by rewrite fmap_reverse].
    apply Hk. intros E. apply Hne. by rewrite <- (reverse_involutive l), E.
  - destruct (AddLast_chain NewPipelineWith [(1%positive, headHandler)]
                (2%positive, tailHandler) [A; B; C] NewPipelineWith_chain Hv)
      as (s' & news & Hrun & Hnews & Hc' & Hg).
    destruct news as [|a [|b [|c [|? ?]]]]; try done. simpl in Hc'.
    destruct (Hends _ _ Hc') as (Hhd' & Htl' & _).
    pose proof (chain_handler_at s' _ 0 _ Hc' eq_refl) as H0.
    pose proof (chain_handler_at s' _ 1 _ Hc' eq_refl) as H1.
    pose proof (chain_handler_at s' _ 2 _ Hc' eq_refl) as H2.
    pose proof (chain_handler_at s' _ 3 _ Hc' eq_refl) as H3.
    pose proof (chain_handler_at s' _ 4 _ Hc' eq_refl) as H4.
    exists s', a, b, c.
    destruct Hg as (Eh & Et & _). rewrite Eh, Et. simpl.
    apply Forall_cons in Hr as [HrA Hr]. apply Forall_cons in Hr as [HrB Hr].
    apply Forall_cons in Hr as [HrC _].
    apply Forall_cons in Hw as [HwA Hw]. apply Forall_cons in Hw as [HwB Hw].
    apply Forall_cons in Hw as [HwC _].
    split_and!.
    + done.
    + done.
    + done.
    + done.
    + done.
    + done.
    + unfold FireChannelRead, HandleRead. rewrite Hhd'.
      erewrite propagate_full; [| eapply linked_path_next, Hc' | simpl; lia |].
      * simpl. done.
      * intros [|[|[|[|[|i]]]]] x [= <-] Hi; simpl in *; try done; lia.
    + unfold FireChannelWrite, HandleWrite. rewrite Htl'.
      erewrite propagate_full; [| eapply linked_path_prev, Hc' | simpl; lia |].
      * simpl. done.
      * intros [|[|[|[|[|i]]]]] x [= <-] Hi; simpl in *; try done; lia.
Qed.

Lemma fire_directions_witness :
  is_chain NewPipelineWith [(1%positive, headHandler); (2%positive, tailHandler)]
  ∧ 2 ≤ 2
  ∧ valid_batch [inbound_only "A"; inbound_only "B"; inbound_only "C"]
  ∧ Forall passes_reads [inbound_only "A"; inbound_only "B"; inbound_only "C"]
  ∧ Forall passes_writes [inbound_only "A"; inbound_only "B"; inbound_only "C"]
  ∧ ∃ k, 1 ≤ k
         ∧ FireChannelRead 2 "ping" NewPipelineWith
           = Some (take k [1%positive; 2%positive]).
Proof.
  assert (Forall passes_reads [inbound_only "A"; inbound_only "B"; inbound_only "C"])
    as Hr by (repeat constructor; by intros _ m).
  assert (Forall passes_writes [inbound_only "A"; inbound_only "B"; inbound_only "C"])
    as Hw by (repeat constructor; by intros ? m).
  assert (valid_batch [inbound_only "A"; inbound_only "B"; inbound_only "C"])
    as Hv by (by repeat constructor).
  split_and!; [apply NewPipelineWith_chain|lia|done..|].
  apply (fire_directions NewPipelineWith _ 2 "ping" _ _ _
           NewPipelineWith_chain (le_n 2) Hv Hr Hw).
Defined.

(** C2. A fresh pipeline has size 2.  After [AddLast(h1, h2, h3)] (in one call
    or one handler per call) the size is 5, [ContextAt(1)], [ContextAt(2)] and
    [ContextAt(3)] are the contexts of [h1], [h2] and [h3] in that order,
    [ContextAt(0)] is the head sentinel context and [ContextAt(4)] the tail
    sentinel context. *)
Theorem fresh_pipeline_then_AddLast h1 h2 h3 :
  recognized h1 = true → recognized h2 = true → recognized h3 = true →
  Size NewPipelineWith = (Return 2%Z, NewPipelineWith)
  ∧ ∃ s c1 c2 c3,
      AddLast [h1; h2; h3] NewPipelineWith = (Return tt, s)
      ∧ (AddLast [h1];; AddLast [h2];; AddLast [h3]) NewPipelineWith = (Return tt, s)
      ∧ Size s = (Return 5%Z, s)
      ∧ ContextAt 0 s = (Return (Some (head (pl s))), s)
      ∧ handler_at s (head (pl s)) = Some headHandler
      ∧ ContextAt 1 s = (Return (Some c1), s) ∧ handler_at s c1 = Some h1
      ∧ ContextAt 2 s = (Return (Some c2), s) ∧ handler_at s c2 = Some h2
      ∧ ContextAt 3 s = (Return (Some c3), s) ∧ handler_at s c3 = Some h3
      ∧ ContextAt 4 s = (Return (Some (tail (pl s))), s)
      ∧ handler_at s (tail (pl s)) = Some tailHandler.
Proof.
  intros H1 H2 H3. split; [done|].
  exists (for_each addLast [h1; h2; h3] NewPipelineWith).2,
    3%positive, 4%positive, 5%positive.
  split_and!.
  - rewrite AddLast_valid by (by repeat constructor). by vm_compute.
  - transitivity (AddLast [h1; h2; h3] NewPipelineWith).
    + rewrite <- (AddLast_one_at_a_time h1 [h2; h3]) by (by repeat constructor).
      unfold mbind, M_bind, bind.
      destruct (AddLast [h1] NewPipelineWith) as [[[]|v] s1]; [|done].
      by rewrite <- (AddLast_one_at_a_time h2 [h3]) by (by repeat constructor).
    + rewrite AddLast_valid by (by repeat constructor). by vm_compute.
  - by vm_compute.
  - by vm_compute.
  - by vm_compute.
  - by vm_compute.
  - by vm_compute.
  - by vm_compute.
  - by vm_compute.
  - by vm_compute.
  - by vm_compute.
  - by vm_compute.
  - by vm_compute.
Qed.


Lemma fresh_pipeline_then_AddLast_witness :
  recognized (inbound_only "h1") = true
  ∧ recognized (inbound_only "h2") = true
  ∧ recognized (inbound_only "h3") = true
  ∧ Size NewPipelineWith = (Return 2%Z, NewPipelineWith).
Proof.
  split_and!; [reflexivity..|].
  apply (fresh_pipeline_then_AddLast
           (inbound_only "h1") (inbound_only "h2") (inbound_only "h3"));
    reflexivity.
Defined.

(** C3. On a pipeline of size [n] and for valid handlers: [AddHandler(-1, h)]
    and [AddHandler(n-1, h)] behave exactly as [AddLast(h)];
    [AddHandler(position, h)] with [position >= n] fails with a configuration
    error and leaves the pipeline unchanged; for [0 <= position < n-1],
    [AddHandler] walks [position] links forward from the head and inserts the
    handlers right after the node it reaches, in the order of the batch. *)
Theorem AddHandler_by_position s l hs :
  invariant_with s l →
  valid_batch hs →
  AddHandler (-1) hs s = AddLast hs s
  ∧ AddHandler (size (pl s) - 1) hs s = AddLast hs s
  ∧ (∀ position, (size (pl s) ≤ position)%Z →
       AddHandler position hs s
       = (Panicked (ConfigError (invalid_position_msg position)), s))
  ∧ (∀ position, (0 ≤ position < size (pl s) - 1)%Z →
       ∃ node s' news,
         walk (Z.to_nat position) (Some (head (pl s))) s = (Return (Some node.1), s)
         ∧ l !! Z.to_nat position = Some node
         ∧ AddHandler position hs s = (Return tt, s')
         ∧ length news = length hs
         ∧ is_chain s' (take (S (Z.to_nat position)) l
                        ++ zip news hs
                        ++ drop (S (Z.to_nat position)) l)
         ∧ (zip news hs).*2 = hs
         ∧ grown s s' (length hs)).
Proof.
  intros Hinv Hv. pose proof Hinv as (Hc & Hsz & Hmax).
  pose proof (chain_two _ _ Hc) as Hlen.
  assert (∀ position,
            AddHandler position hs s
            = (AssertIf (bool_decide (size (pl s) ≤ position)%Z)
                 (invalid_position_msg position);;
               if bool_decide (-1 = position)%Z
                  || bool_decide (position = size (pl s) - 1)%Z
               then AddLast hs
               else curNode ← walk (Z.to_nat position) (Some (head (pl s)));
                    insert_after curNode hs) s) as Hunfold.
  { intros position. unfold AddHandler, checkHandler, mbind, M_bind, bind at 1.
    rewrite checkHandler_from_ok by done.
    unfold get, mbind, M_bind, bind. by rewrite wrap_int_pred by lia. }
  split_and!.
  - rewrite Hunfold. unfold mbind, M_bind, bind, AssertIf.
    by rewrite bool_decide_eq_false_2 by lia.
  - rewrite Hunfold. unfold mbind, M_bind, bind, AssertIf.
    rewrite bool_decide_eq_false_2 by lia. simpl.
    rewrite (bool_decide_eq_true_2 (_ - 1 = _ - 1)%Z) by done.
    by rewrite orb_true_r.
  - intros position Hpos. by apply AddHandler_out_of_range.
  - intros position Hpos.
    destruct (lookup_lt_is_Some_2 l (Z.to_nat position)) as [node Hnode]; [lia|].
    destruct (AddHandler_chain s l position hs Hinv Hv)
      as (s' & news & Hrun & Hnews & Hc' & Hg); [lia|].
    unfold insertion_index in Hc'. rewrite bool_decide_eq_false_2 in Hc' by lia.
    exists node, s', news. split_and!; try done.
    + destruct (chain_head_lookup _ _ Hc) as (x0 & Hx0 & Hhd).
      replace (Some (head (pl s))) with (first_or l None)
        by (destruct l; simpl in *; congruence).
      eapply walk_spec; [apply Hc|done].
    + by apply zip_snd_same_length.
Qed.

Lemma AddHandler_by_position_witness :
  invariant_with NewPipelineWith
    [(1%positive, headHandler); (2%positive, tailHandler)]
  ∧ valid_batch [inbound_only "h"]
  ∧ AddHandler (-1) [inbound_only "h"] NewPipelineWith
    = AddLast [inbound_only "h"] NewPipelineWith.
Proof.
  assert (valid_batch [inbound_only "h"]) as Hv by (by repeat constructor).
  split_and!; [apply NewPipelineWith_invariant_with|done|].
  apply (AddHandler_by_position NewPipelineWith _ [inbound_only "h"]
           NewPipelineWith_invariant_with Hv).
Defined.




(** C5. [ServeChannel] attaches a channel once: on a pipeline without a
    channel the call records the channel and tells it to begin serving; any
    call on a pipeline that has a channel fails with a configuration error and
    the channel attached first stays as it is. *)
Theorem ServeChannel_attaches_once s c ch :
  channel (pl s) = None →
  ∃ s1,
    ServeChannel (Some c) s = (Return tt, s1)
    ∧ get_Channel s1 = (Return (Some c), s1)
    ∧ served s1 = served s ++ [c]
    ∧ ctxs s1 = ctxs s ∧ head (pl s1) = head (pl s)
    ∧ tail (pl s1) = tail (pl s) ∧ size (pl s1) = size (pl s)
    ∧ ServeChannel ch s1
      = (Panicked (ConfigError "already attached channel"), s1)
    ∧ (ServeChannel (Some c);; ServeChannel ch) s
      = (Panicked (ConfigError "already attached channel"), s1)
    ∧ ∀ s0 c0, channel (pl s0) = Some c0 →
        ServeChannel ch s0
        = (Panicked (ConfigError "already attached channel"), s0).
Proof.
  intros Hnone.
  assert (∀ s0 c0, channel (pl s0) = Some c0 →
            ServeChannel ch s0
            = (Panicked (ConfigError "already attached channel"), s0)) as Hdup.
  { intros s0 c0 H0. unfold ServeChannel, mbind, M_bind, bind, get, AssertIf.
    by rewrite H0. }
  assert (ServeChannel (Some c) s
          = (Return tt,
             mkState (ctxs s)
               (mkPipeline (head (pl s)) (tail (pl s)) (Some c) (size (pl s)))
               (served s ++ [c]))) as Hrun.
  { unfold ServeChannel, mbind, M_bind, bind, get, AssertIf, put.
    by rewrite Hnone. }
  eexists. split; [exact Hrun|]. simpl.
  split_and!; [done..| | |exact Hdup].
  - by eapply Hdup.
  - unfold mbind, M_bind, bind at 1. rewrite Hrun. by eapply Hdup.
Qed.

Lemma ServeChannel_attaches_once_witness :
  channel (pl NewPipelineWith) = None
  ∧ ∃ s1, ServeChannel (Some 7) NewPipelineWith = (Return tt, s1)
          ∧ get_Channel s1 = (Return (Some 7), s1)
          ∧ ServeChannel (Some 8) s1
            = (Panicked (ConfigError "already attached channel"), s1).
Proof.
  split; [reflexivity|].
  destruct (ServeChannel_attaches_once NewPipelineWith 7 (Some 8) eq_refl)
    as (s1 & Hrun & Hch & _ & _ & _ & _ & _ & Hdup & _).
  by exists s1.
Defined.

(** C6. [AddFirst], [AddLast] and [AddHandler] preserve the structural
    invariant, whatever the batch and the position and whether the call
    returns or fails: [size] is at least 2, the nodes from the head to the tail
    form one chain, [size] is the number of its nodes, and between nodes of the
    chain [a.next == b] exactly when [b.prev == a].  ([size] is an [int]: the
    chain is taken to stay below [2^63] nodes.) *)
Theorem insertions_preserve_invariant s hs position s' :
  invariant s →
  (size (pl s) + Z.of_nat (length hs) ≤ int_max)%Z →
  s' = (AddFirst hs s).2 ∨ s' = (AddLast hs s).2
  ∨ s' = (AddHandler position hs s).2 →
  invariant s'
  ∧ (2 ≤ size (pl s'))%Z
  ∧ ∃ l', is_chain s' l'
          ∧ size (pl s') = Z.of_nat (length l')
          ∧ back_links_consistent s' l'.
Proof.
  intros (l & Hinv) Hroom Hs'. pose proof Hinv as (Hc & Hsz & Hmax).
  cut (∃ l', is_chain s' l' ∧ size (pl s') = Z.of_nat (length l')
             ∧ (size (pl s') ≤ int_max)%Z).
  { intros (l' & Hc' & Hsz' & Hmax'). split_and!.
    - by exists l'.
    - apply chain_two in Hc'. lia.
    - exists l'. split_and!; try done. by apply chain_back_links. }
  assert (s' = s → ∃ l', is_chain s' l' ∧ size (pl s') = Z.of_nat (length l')
                         ∧ (size (pl s') ≤ int_max)%Z)
    as Hsame.
  { intros ->. by exists l. }
  assert (∀ k, size (pl s') = Nat.iter (length hs) incr (size (pl s)) →
               k = length l + length hs →
               size (pl s') = Z.of_nat k ∧ (size (pl s') ≤ int_max)%Z) as Hsize.
  { intros k -> ->. rewrite iter_incr_small; unfold int_min; lia. }
  destruct (decide (valid_batch hs)) as [Hv|Hbad].
  - destruct (valid_batch_spliced s hs position l Hv Hinv)
      as (Hfirst & Hlast & Hat).
    destruct Hs' as [Hs'|[Hs'|Hs']].
    + destruct Hfirst as (s1 & news & Hrun & Hnews & Hc1 & Hsz1).
      rewrite Hrun in Hs'. simpl in Hs'. subst s1.
      eexists. split; [exact Hc1|]. apply Hsize; [done|].
      rewrite length_inserted, length_reverse, length_zip. lia.
    + destruct Hlast as (s1 & news & Hrun & Hnews & Hc1 & Hsz1).
      rewrite Hrun in Hs'. simpl in Hs'. subst s1.
      eexists. split; [exact Hc1|]. apply Hsize; [done|].
      rewrite length_inserted, length_zip. lia.
    + destruct (decide (position < size (pl s))%Z) as [Hpos|Hpos].
      * destruct (Hat Hpos) as (s1 & news & Hrun & Hnews & Hc1 & Hsz1).
        rewrite Hrun in Hs'. simpl in Hs'. subst s1.
        eexists. split; [exact Hc1|]. apply Hsize; [done|].
        rewrite length_inserted, length_zip. lia.
      * apply Hsame. rewrite Hs', AddHandler_out_of_range; [done..|lia].
  - apply first_offender in Hbad as (k & h & Hk & Hh & Hpre).
    destruct (batch_refused hs s k h position Hk Hh Hpre) as (E1 & E2 & E3).
    apply Hsame. rewrite E1, E2, E3 in Hs'. simpl in Hs'. tauto.
Qed.

Lemma insertions_preserve_invariant_witness :
  invariant NewPipelineWith
  ∧ (size (pl NewPipelineWith) + Z.of_nat (length [inbound_only "h"]) ≤ int_max)%Z
  ∧ invariant (AddFirst [inbound_only "h"] NewPipelineWith).2.
Proof.
  assert (invariant NewPipelineWith) as Hinv.
  { eexists. apply NewPipelineWith_invariant_with. }
  assert (size (pl NewPipelineWith) + Z.of_nat (length [inbound_only "h"])
          ≤ int_max)%Z as Hroom by (by vm_compute).
  split_and!; [done..|].
  apply (insertions_preserve_invariant NewPipelineWith [inbound_only "h"] 0 _
           Hinv Hroom (or_introl eq_refl)).
Defined.

(** C9. [AddFirst(h1, ..., hn)] puts each handler right after the head
    sentinel in turn, so the batch ends up reversed: the chain reads
    [head, hn, ..., h1, ...].  After [AddFirst(h1, h2, h3)] on a fresh
    pipeline, [ContextAt(1)], [ContextAt(2)], [ContextAt(3)] are the contexts
    of [h3], [h2], [h1]. *)
Theorem AddFirst_reverses_batch s x rest hs h1 h2 h3 :
  is_chain s (x :: rest) →
  valid_batch hs →
  recognized h1 = true → recognized h2 = true → recognized h3 = true →
  (∃ s' news,
     AddFirst hs s = (Return tt, s')
     ∧ length news = length hs
     ∧ is_chain s' (x :: reverse (zip news hs) ++ rest)
     ∧ (x :: reverse (zip news hs) ++ rest).*2 = x.2 :: reverse hs ++ rest.*2
     ∧ grown s s' (length hs))
  ∧ (∃ s' c1 c2 c3,
       AddFirst [h1; h2; h3] NewPipelineWith = (Return tt, s')
       ∧ ContextAt 1 s' = (Return (Some c1), s') ∧ handler_at s' c1 = Some h3
       ∧ ContextAt 2 s' = (Return (Some c2), s') ∧ handler_at s' c2 = Some h2
       ∧ ContextAt 3 s' = (Return (Some c3), s') ∧ handler_at s' c3 = Some h1).
Proof.
  intros Hc Hv H1 H2 H3. split.
  - destruct (AddFirst_chain s x rest hs Hc Hv) as (s' & news & ? & Hnews & ? & ?).
    exists s', news. split_and!; try done.
    rewrite fmap_cons, fmap_app, fmap_reverse.
    by rewrite zip_snd_same_length.
  - exists (for_each addFirst [h1; h2; h3] NewPipelineWith).2,
      5%positive, 4%positive, 3%positive.
    rewrite AddFirst_valid by (by repeat constructor).
    split_and!; by vm_compute.
Qed.


Lemma AddFirst_reverses_batch_witness :
  is_chain NewPipelineWith ((1%positive, headHandler) :: [(2%positive, tailHandler)])
  ∧ valid_batch [inbound_only "h1"; inbound_only "h2"]
  ∧ recognized (inbound_only "h1") = true
  ∧ ∃ s' news,
      AddFirst [inbound_only "h1"; inbound_only "h2"] NewPipelineWith
      = (Return tt, s')
      ∧ is_chain s' ((1%positive, headHandler)
                     :: reverse (zip news [inbound_only "h1"; inbound_only "h2"])
                     ++ [(2%positive, tailHandler)]).
Proof.
  assert (valid_batch [inbound_only "h1"; inbound_only "h2"]) as Hv
    by (by repeat constructor).
  split_and!; [apply NewPipelineWith_chain|done|reflexivity|].
  destruct (AddFirst_reverses_batch NewPipelineWith _ _ _
              (inbound_only "h1") (inbound_only "h1") (inbound_only "h1")
              NewPipelineWith_chain Hv eq_refl eq_refl eq_refl)
    as [(s' & news & Hrun & _ & Hc & _) _].
  by exists s', news.
Defined.

(** C10. For a position of -2 or less, [ContextAt(position)] returns the head
    sentinel context (the node at index 0, not the "not found" result), and
    [AddHandler(position, h)] does not fail: it does what
    [AddHandler(0, h)] does and inserts right after the head sentinel. *)
Theorem positions_below_minus_one s l position hs :
  invariant_with s l →
  (position ≤ -2)%Z →
  ContextAt position s = (Return (Some (head (pl s))), s)
  ∧ ContextAt 0 s = (Return (Some (head (pl s))), s)
  ∧ AddHandler position hs s = AddHandler 0 hs s
  ∧ (valid_batch hs →
     ∃ s' news,
       AddHandler position hs s = (Return tt, s')
       ∧ length news = length hs
       ∧ is_chain s' (take 1 l ++ zip news hs ++ drop 1 l)
       ∧ grown s s' (length hs)).
Proof.
  intros Hinv Hpos. pose proof Hinv as (Hc & Hsz & Hmax).
  pose proof (chain_two _ _ Hc) as Hlen.
  assert (Z.to_nat position = 0) as Hsteps by lia.
  split_and!.
  - unfold ContextAt, mbind, M_bind, bind, get.
    rewrite !bool_decide_eq_false_2 by lia. simpl. by rewrite Hsteps.
  - unfold ContextAt, mbind, M_bind, bind, get.
    by rewrite !bool_decide_eq_false_2 by lia.
  - unfold AddHandler, mbind, M_bind, bind, get, AssertIf, checkHandler.
    pose proof (checkHandler_from_state hs 0 s) as Hst.
    destruct (checkHandler_from 0 hs s) as [[[]|v] s1]; simpl in Hst; subst s1; [|done].
    rewrite wrap_int_pred by lia.
    rewrite !bool_decide_eq_false_2 by lia. simpl. by rewrite Hsteps.
  - intros Hv.
    destruct (AddHandler_chain s l position hs Hinv Hv)
      as (s' & news & Hrun & Hnews & Hc' & Hg); [lia|].
    unfold insertion_index in Hc'. rewrite bool_decide_eq_false_2 in Hc' by lia.
    rewrite Hsteps in Hc'. by exists s', news.
Qed.


Lemma positions_below_minus_one_witness :
  invariant_with NewPipelineWith
    [(1%positive, headHandler); (2%positive, tailHandler)]
  ∧ (-5 ≤ -2)%Z
  ∧ ContextAt (-5) NewPipelineWith = (Return (Some 1%positive), NewPipelineWith).
Proof.
  split_and!; [apply NewPipelineWith_invariant_with|lia|].
  apply (positions_below_minus_one NewPipelineWith _ (-5) []
           NewPipelineWith_invariant_with).
  lia.
Defined.

End PipelineSpec.
(** * Specification of exception wrapping *)

Module ExceptionSpec.
Import Exception.

Lemma AsException_is_Exception e stack :
  e ≠ nil → is_Exception (AsException e stack) = true.
Proof.
  intros Hne. destruct e as [|err st|ty ms text]; [done|done|].
  unfold AsException. destruct (is_Exception (other ty ms text)) eqn:E; [done|].
  by destruct (is_error (other ty ms text)).
Qed.

(** C7. [AsException(nil, stack)] is [nil]; a value that already is an
    [Exception] is returned unchanged, so wrapping twice is wrapping once:
    [AsException(AsException(e, s), s') = AsException(e, s)]; an error that is
    not an [Exception] is wrapped with the given stack, the wrapper carrying
    the error as its cause; any other value is wrapped, with the given stack,
    around a new error made by formatting the value. *)
Theorem AsException_cases e stack stack' :
  AsException nil stack = nil
  ∧ (is_Exception e = true → AsException e stack = e)
  ∧ AsException (AsException e stack) stack' = AsException e stack
  ∧ (is_Exception e = false → is_error e = true →
     AsException e stack = exception e stack
     ∧ Unwrap (AsException e stack) = Some e
     ∧ Stack (AsException e stack) = Some stack)
  ∧ (e ≠ nil → is_error e = false →
     AsException e stack = exception (Errorf_v e) stack
     ∧ Unwrap (AsException e stack)
       = Some (other "*errors.errorString" only_Error (Sprint_v e))
     ∧ Stack (AsException e stack) = Some stack).
Proof.
  split_and!.
  - done.
  - intros HE. destruct e; [done|done|]. unfold AsException. by rewrite HE.
  - assert (e = nil ∨ e ≠ nil) as [->|Hne] by (destruct e; by auto).
    { done. }
    pose proof (AsException_is_Exception e stack Hne) as HE.
    destruct (AsException e stack) eqn:Ew; [done|done|].
    unfold AsException. by rewrite HE.
  - intros HE Herr. destruct e; [done|done|].
    unfold AsException. by rewrite HE, Herr.
  - intros Hne Herr.
    assert (is_Exception e = false) as HE.
    { unfold is_Exception, is_error in *. rewrite Herr.
      by destruct (has_Unwrap (methods_of e)). }
    destruct e; [done|done|].
    unfold AsException. by rewrite HE, Herr.
Qed.

Lemma AsException_cases_witness :
  is_Exception (other "*os.PathError" only_Error "open x: no such file") = false
  ∧ is_error (other "*os.PathError" only_Error "open x: no such file") = true
  ∧ AsException (other "*os.PathError" only_Error "open x: no such file") []
    = exception (other "*os.PathError" only_Error "open x: no such file") [].
Proof.
  split_and!; [reflexivity..|].
  apply (AsException_cases
           (other "*os.PathError" only_Error "open x: no such file") [] []);
    reflexivity.
Defined.

End ExceptionSpec.

(** * Specification of the listener *)

Module BootstrapSpec.
Import Bootstrap.

Section Sync.
Context {Option Options Acceptor Transport : Type}.
Context (ParseOptions : string → list Option → Options * option string).
Context (Listen : Options → option Acceptor * option string).
Context (Accept : Acceptor → nat → Transport * option string).
Context (Done : nat → bool).
Context (Close : Transport → option string).

Abbreviation Sync' := (Sync ParseOptions Listen Accept Done Close).

(** A [Sync] that gets as far as the transport factory leaves in
    [l.acceptor] whatever [Listen] returned. *)
Lemma Sync_stores_acceptor fuel (l : listener) opts acc err :
  acceptor l = None →
  ParseOptions (url l) (option_list l) = (opts, None) →
  Listen opts = (acc, err) →
  acceptor (Sync' fuel l).1.2 = acc.
Proof.
  intros Hnone Hparse Hlisten. unfold Sync.
  rewrite Hnone, Hparse, Hlisten.
  destruct err; [done|]. destruct acc; [|done].
  by destruct (accept_loop Accept Done Close fuel a 0).
Qed.

(** C8. [Sync] is single-use: once the listener has an acceptor, a call to
    [Sync] returns the duplicate-call error at once; it parses no options and
    asks the transport factory for no acceptor, and the listener is left as it
    is.  After a [Sync] that opened an acceptor, however far its accept loop
    has got, every further [Sync] on the listener ends that way. *)
Theorem Sync_single_use fuel fuel' (l : listener) a :
  (acceptor l = Some a →
   Sync' fuel l = (Returned (Some "duplicate call Listener:Sync"), l, []))
  ∧ (∀ opts,
       acceptor l = None →
       ParseOptions (url l) (option_list l) = (opts, None) →
       Listen opts = (Some a, None) →
       let l' := (Sync' fuel l).1.2 in
       acceptor l' = Some a
       ∧ Sync' fuel' l'
         = (Returned (Some "duplicate call Listener:Sync"), l', [])).
Proof.
  assert (∀ k (l0 : listener) a0, acceptor l0 = Some a0 →
            Sync' k l0 = (Returned (Some "duplicate call Listener:Sync"), l0, []))
    as Hdup.
  { intros k l0 a0 H0. unfold Sync. by rewrite H0. }
  split.
  - apply Hdup.
  - intros opts Hnone Hparse Hlisten l'.
    pose proof (Sync_stores_acceptor fuel l opts _ _ Hnone Hparse Hlisten) as Hacc.
    split; [done|]. by eapply Hdup.
Qed.
End Sync.

Lemma Sync_single_use_witness :
  let l := mkListener (Option := unit) (Options := string) (Acceptor := nat)
             "tcp://127.0.0.1:0" [] None None in
  let parse (u : string) (_ : list unit) := (u, @None string) in
  let listen (_ : string) := (Some 1, @None string) in
  let accept (_ n : nat) := (n, @None string) in
  acceptor l = None
  ∧ parse (url l) (option_list l) = ("tcp://127.0.0.1:0", None)
  ∧ listen "tcp://127.0.0.1:0" = (Some 1, None)
  ∧ Sync parse listen accept (λ _, false) (λ _ : nat, None) 9
      (Sync parse listen accept (λ _, false) (λ _ : nat, None) 3 l).1.2
    = (Returned (Some "duplicate call Listener:Sync"),
       (Sync parse listen accept (λ _, false) (λ _ : nat, None) 3 l).1.2, []).
Proof.
  intros l parse listen accept.
  split_and!; [reflexivity..|].
  apply (proj2 (Sync_single_use parse listen accept (λ _, false) (λ _ : nat, None)
                  3 9 l 1) "tcp://127.0.0.1:0"); reflexivity.
Defined.

End BootstrapSpec.

(** * Facts about the index scans *)

Module PipelineScanFacts.
Import Pipeline PipelineFacts PipelineScan.

Lemma IndexOf_loop_scan fuel comp : ∀ i node s,
  IndexOf_loop fuel comp i node s
  = scan next (λ i, wrap_int (i + 1)) fuel comp i node s.
Proof.
  induction fuel as [|fuel IH]; intros i node s; [done|].
  simpl. unfold mbind, M_bind, bind.
  destruct (deref node s) as [[c|v] s1]; [|done].
  destruct (comp (handler c)); [done|].
  destruct (next c); [apply IH|done].
Qed.

Lemma LastIndexOf_loop_scan fuel comp : ∀ i node s,
  LastIndexOf_loop fuel comp i node s
  = scan prev (λ i, wrap_int (i - 1)) fuel comp i node s.
Proof.
  induction fuel as [|fuel IH]; intros i node s; [done|].
  simpl. unfold mbind, M_bind, bind.
  destruct (deref node s) as [[c|v] s1]; [|done].
  destruct (comp (handler c)); [done|].
  destruct (prev c); [apply IH|done].
Qed.

Section scan.
Context (onward : handlerContext → option loc) (step : Z → Z).
Context (comp : Handler → bool) (s : state).

(** The scan stops at the first node of the path whose handler satisfies
    [comp]. *)
Lemma scan_found l : ∀ fuel i k x,
  path onward (ctxs s) l →
  l !! k = Some x →
  comp x.2 = true →
  (∀ j y, j < k → l !! j = Some y → comp y.2 = false) →
  k < fuel →
  scan onward step fuel comp i (first_or l None) s
  = (Return (Some (Nat.iter k step i)), s).
Proof.
  induction l as [|y l IH]; intros fuel i k x Hp Hk Hx Hbefore Hfuel; [done|].
  simpl in Hp. destruct Hp as [(c & Hc & Hh & Hon) Hp].
  destruct fuel as [|fuel]; [lia|].
  simpl. unfold mbind, M_bind, bind, deref. rewrite Hc, Hh. simpl.
  destruct k as [|k]; simpl in Hk.
  - injection Hk as ->. by rewrite Hx.
  - rewrite (Hbefore 0 y) by (done || lia). rewrite Hon.
    destruct l as [|z l]; [done|].
    assert (scan onward step fuel comp (step i) (first_or (z :: l) None) s
            = (Return (Some (Nat.iter k step (step i))), s)) as E.
    { apply (IH fuel (step i) k x); [done|done|done| |lia].
      intros j y' Hj Hy'. apply (Hbefore (S j) y'); [lia|done]. }
    simpl in E |- *. rewrite E. by rewrite <- Nat.iter_succ_r.
Qed.

(** When no handler of the path satisfies [comp], the scan runs off its end
    and answers -1. *)
Lemma scan_none l : ∀ fuel i,
  path onward (ctxs s) l →
  l ≠ [] →
  (∀ y, y ∈ l → comp y.2 = false) →
  length l ≤ fuel →
  scan onward step fuel comp i (first_or l None) s = (Return (Some (-1)%Z), s).
Proof.
  induction l as [|y l IH]; intros fuel i Hp Hne Hall Hfuel; [done|].
  simpl in Hp, Hfuel. destruct Hp as [(c & Hc & Hh & Hon) Hp].
  destruct fuel as [|fuel]; [lia|].
  simpl. unfold mbind, M_bind, bind, deref. rewrite Hc, Hh. simpl.
  rewrite (Hall y) by apply list_elem_of_here. rewrite Hon.
  destruct l as [|z l]; [done|].
  apply (IH fuel (step i)); [done|done| |simpl in *; lia].
  intros y' Hy'. apply Hall. by apply list_elem_of_further.
Qed.
End scan.

Lemma iter_up k : (Z.of_nat k ≤ int_max)%Z →
  Nat.iter k (λ i, wrap_int (i + 1)) 0%Z = Z.of_nat k.
Proof.
  induction k as [|k IH]; intros Hk; [done|].
  simpl. rewrite IH by lia.
  rewrite wrap_int_small; unfold int_min, int_max in *; lia.
Qed.

Lemma iter_down k n : (Z.of_nat k ≤ n ≤ int_max)%Z →
  Nat.iter k (λ i, wrap_int (i - 1)) n = (n - Z.of_nat k)%Z.
Proof.
  induction k as [|k IH]; intros Hk; simpl; [lia|].
  rewrite IH by lia. rewrite wrap_int_small; unfold int_min, int_max in *; lia.
Qed.

End PipelineScanFacts.

(** * Further properties of the pipeline *)

Module PipelineExtra.
Import Pipeline PipelineFacts PipelineScan PipelineScanFacts.

Lemma chain_first_or s l :
  is_chain s l →
  Some (head (pl s)) = first_or l None
  ∧ Some (tail (pl s)) = first_or (reverse l) None.
Proof.
  intros Hc. destruct (chain_ends _ _ Hc) as (x & mid & t & -> & -> & ->).
  by rewrite reverse_cons, reverse_app.
Qed.

(** What [IndexOf] finds on a chain. *)
Lemma IndexOf_on_chain s l fuel comp :
  invariant_with s l →
  length l ≤ fuel →
  (∀ k x,
     l !! k = Some x →
     comp x.2 = true →
     (∀ j y, j < k → l !! j = Some y → comp y.2 = false) →
     IndexOf fuel comp s = (Return (Some (Z.of_nat k)), s))
  ∧ ((∀ y, y ∈ l → comp y.2 = false) →
     IndexOf fuel comp s = (Return (Some (-1)%Z), s)).
Proof.
  intros (Hc & Hsz & Hmax) Hfuel.
  destruct (chain_first_or _ _ Hc) as [Hhd _].
  pose proof (linked_path_next _ _ _ (chain_linked _ _ Hc)) as Hp.
  assert (l ≠ []) as Hne.
  { intros ->. apply chain_two in Hc. simpl in Hc. lia. }
  unfold IndexOf, mbind, M_bind, bind, get. rewrite Hhd.
  split.
  - intros k x Hk Hx Hbefore.
    pose proof (lookup_lt_Some _ _ _ Hk) as Hlt.
    rewrite IndexOf_loop_scan, (scan_found _ _ _ _ l fuel 0%Z k x); try done; [|lia].
    by rewrite iter_up by lia.
  - intros Hall. by rewrite IndexOf_loop_scan, (scan_none _ _ _ _ l).
Qed.

(** X1. [IndexOf] returns the index of the first context, counted from the head
    sentinel at 0, whose handler satisfies the predicate, and -1 when no
    handler of the chain does. *)
Theorem IndexOf_first_match s l fuel comp :
  invariant_with s l →
  length l ≤ fuel →
  (∀ k x,
     l !! k = Some x →
     comp x.2 = true →
     (∀ j y, j < k → l !! j = Some y → comp y.2 = false) →
     IndexOf fuel comp s = (Return (Some (Z.of_nat k)), s))
  ∧ ((∀ y, y ∈ l → comp y.2 = false) →
     IndexOf fuel comp s = (Return (Some (-1)%Z), s)).
Proof. apply IndexOf_on_chain. Qed.

Lemma IndexOf_first_match_witness :
  invariant_with NewPipelineWith
    [(1%positive, headHandler); (2%positive, tailHandler)]
  ∧ 2 ≤ 2
  ∧ IndexOf 2 (λ h, String.eqb (type_name h) "*netty.tailHandler") NewPipelineWith
    = (Return (Some 1%Z), NewPipelineWith).
Proof.
  split_and!; [apply NewPipelineWith_invariant_with|lia|].
  apply (proj1 (IndexOf_first_match NewPipelineWith _ 2
                  (λ h, String.eqb (type_name h) "*netty.tailHandler")
                  NewPipelineWith_invariant_with (le_n 2))
           1 (2%positive, tailHandler)); [reflexivity..|].
  intros [|j] y Hj Hy; [|lia].
  simpl in Hy. injection Hy as <-. reflexivity.
Defined.

(** X2. [LastIndexOf] returns the index of the last context whose handler
    satisfies the predicate (the tail sentinel being at [size-1]), and -1 when
    no handler of the chain does. *)
Theorem LastIndexOf_last_match s l fuel comp :
  invariant_with s l →
  length l ≤ fuel →
  (∀ k x,
     l !! k = Some x →
     comp x.2 = true →
     (∀ j y, k < j → l !! j = Some y → comp y.2 = false) →
     LastIndexOf fuel comp s = (Return (Some (Z.of_nat k)), s))
  ∧ ((∀ y, y ∈ l → comp y.2 = false) →
     LastIndexOf fuel comp s = (Return (Some (-1)%Z), s)).
Proof.
  intros (Hc & Hsz & Hmax) Hfuel.
  destruct (chain_first_or _ _ Hc) as [_ Htl].
  pose proof (linked_path_prev _ _ _ (chain_linked _ _ Hc)) as Hp.
  pose proof (chain_two _ _ Hc) as Hlen.
  assert (reverse l ≠ []) as Hne.
  { intros E. apply (f_equal length) in E. rewrite length_reverse in E.
    simpl in E. lia. }
  unfold LastIndexOf, mbind, M_bind, bind, get. rewrite Htl.
  rewrite wrap_int_pred by lia.
  split.
  - intros k x Hk Hx Hafter.
    pose proof (lookup_lt_Some _ _ _ Hk) as Hlt.
    rewrite LastIndexOf_loop_scan,
      (scan_found _ _ _ _ (reverse l) fuel _ (length l - 1 - k) x); try done.
    + rewrite iter_down by lia. do 3 f_equal. lia.
    + rewrite reverse_lookup by lia. rewrite <- Hk. f_equal. lia.
    + intros j y Hj Hy.
      assert (j < length l) as Hjl.
      { apply lookup_lt_Some in Hy. by rewrite length_reverse in Hy. }
      rewrite reverse_lookup in Hy by done.
      apply (Hafter (length l - S j) y); [lia|done].
    + lia.
  - intros Hall. rewrite LastIndexOf_loop_scan, (scan_none _ _ _ _ (reverse l));
      try done; [|by rewrite length_reverse].
    intros y Hy. apply Hall. by apply elem_of_reverse.
Qed.

Lemma LastIndexOf_last_match_witness :
  invariant_with NewPipelineWith
    [(1%positive, headHandler); (2%positive, tailHandler)]
  ∧ 2 ≤ 2
  ∧ LastIndexOf 2 (λ _, true) NewPipelineWith
    = (Return (Some 1%Z), NewPipelineWith).
Proof.
  split_and!; [apply NewPipelineWith_invariant_with|lia|].
  apply (proj1 (LastIndexOf_last_match NewPipelineWith _ 2 (λ _, true)
                  NewPipelineWith_invariant_with (le_n 2))
           1 (2%positive, tailHandler)); [reflexivity..|].
  intros [|[|j]] y Hj Hy; [lia|lia|done].
Defined.

(** X3. [ContextAt] and [IndexOf] fit together: the index [IndexOf] returns is
    either -1, when no handler satisfies the predicate, and then
    [ContextAt] of it is [nil]; or an index below [size] at which [ContextAt]
    yields a context whose handler satisfies the predicate. *)
Theorem IndexOf_then_ContextAt s l fuel comp :
  invariant_with s l →
  length l ≤ fuel →
  ∃ r,
    IndexOf fuel comp s = (Return (Some r), s)
    ∧ ((r = (-1)%Z
        ∧ (∀ y, y ∈ l → comp y.2 = false)
        ∧ ContextAt r s = (Return None, s))
       ∨ ((0 ≤ r < size (pl s))%Z
          ∧ ∃ c h,
              ContextAt r s = (Return (Some c), s)
              ∧ handler_at s c = Some h
              ∧ comp h = true)).
Proof.
  intros Hinv Hfuel.
  destruct (IndexOf_on_chain s l fuel comp Hinv Hfuel) as [Hfound Hnone].
  destruct (list_find (λ y, comp y.2 = true) l) as [[k x]|] eqn:Hfind.
  - apply list_find_Some in Hfind as (Hk & Hx & Hbefore).
    exists (Z.of_nat k). split.
    + apply (Hfound k x Hk Hx). intros j y Hj Hy.
      specialize (Hbefore j y Hy Hj). by destruct (comp y.2).
    + right. pose proof (lookup_lt_Some _ _ _ Hk) as Hlt.
      destruct Hinv as (Hc & Hsz & Hmax). split; [lia|].
      destruct (ContextAt_chain s l k x) as [Hat Hh]; [done|done|].
      by exists x.1, x.2.
  - apply list_find_None in Hfind.
    assert (∀ y, y ∈ l → comp y.2 = false) as Hall.
    { intros y Hy. rewrite Forall_forall in Hfind. specialize (Hfind y Hy).
      by destruct (comp y.2). }
    exists (-1)%Z. split; [by apply Hnone|]. left. split_and!; [done|done|].
    unfold ContextAt, mbind, M_bind, bind, get.
    by rewrite (bool_decide_eq_true_2 (-1 = -1)%Z).
Qed.

Lemma IndexOf_then_ContextAt_witness :
  invariant_with NewPipelineWith
    [(1%positive, headHandler); (2%positive, tailHandler)]
  ∧ 2 ≤ 2
  ∧ ∃ r, IndexOf 2 (λ _, false) NewPipelineWith
         = (Return (Some r), NewPipelineWith).
Proof.
  split_and!; [apply NewPipelineWith_invariant_with|lia|].
  destruct (IndexOf_then_ContextAt NewPipelineWith _ 2 (λ _, false)
              NewPipelineWith_invariant_with (le_n 2)) as (r & Hr & _).
  by exists r.
Defined.

(** X4. [ContextAt] by index: an index from 0 to [size-1] yields the node at that
    place of the chain, -1 and an index of [size] or more yield [nil]; the
    pipeline is left as it is. *)
Theorem ContextAt_lookup s l position :
  invariant_with s l →
  ((0 ≤ position < size (pl s))%Z →
   ∃ x, l !! Z.to_nat position = Some x
        ∧ ContextAt position s = (Return (Some x.1), s)
        ∧ handler_at s x.1 = Some x.2)
  ∧ ((position = -1 ∨ size (pl s) ≤ position)%Z →
     ContextAt position s = (Return None, s)).
Proof.
  intros Hinv. pose proof Hinv as (Hc & Hsz & Hmax). split.
  - intros Hpos.
    destruct (lookup_lt_is_Some_2 l (Z.to_nat position)) as [x Hx]; [lia|].
    exists x. split; [done|].
    destruct (ContextAt_chain s l (Z.to_nat position) x Hinv Hx) as [Hat Hh].
    rewrite Z2Nat.id in Hat by lia. done.
  - intros Hout. unfold ContextAt, mbind, M_bind, bind, get.
    destruct Hout as [-> |Hge].
    + by rewrite (bool_decide_eq_true_2 (-1 = -1)%Z).
    + rewrite (bool_decide_eq_true_2 (size (pl s) ≤ position)%Z) by done.
      by rewrite orb_true_r.
Qed.

Lemma ContextAt_lookup_witness :
  invariant_with NewPipelineWith
    [(1%positive, headHandler); (2%positive, tailHandler)]
  ∧ ContextAt 2 NewPipelineWith = (Return None, NewPipelineWith).
Proof.
  split; [apply NewPipelineWith_invariant_with|].
  apply (proj2 (ContextAt_lookup NewPipelineWith _ 2
                  NewPipelineWith_invariant_with)).
  right. by vm_compute.
Defined.

(** X5. An empty batch changes nothing: [AddFirst()] and [AddLast()] return with
    the pipeline as it was, and so does [AddHandler(position)] for a position
    below [size]; for a position of [size] or more [AddHandler] fails on the
    position even though it has nothing to insert. *)
Theorem empty_batch s l position :
  invariant_with s l →
  AddFirst [] s = (Return tt, s)
  ∧ AddLast [] s = (Return tt, s)
  ∧ ((position < size (pl s))%Z → AddHandler position [] s = (Return tt, s))
  ∧ ((size (pl s) ≤ position)%Z →
     AddHandler position [] s
     = (Panicked (ConfigError (invalid_position_msg position)), s)).
Proof.
  intros Hinv. pose proof Hinv as (Hc & Hsz & Hmax).
  pose proof (chain_two _ _ Hc) as Hlen.
  split_and!; [done|done| |].
  - intros Hpos.
    unfold AddHandler, checkHandler, mbind, M_bind, bind, get, AssertIf. simpl.
    rewrite bool_decide_eq_false_2 by lia. simpl.
    destruct (bool_decide (-1 = position)%Z
              || bool_decide (position = wrap_int (size (pl s) - 1))%Z) eqn:E;
      [done|].
    apply orb_false_iff in E as [E1 E2].
    apply bool_decide_eq_false in E1, E2. rewrite wrap_int_pred in E2 by lia.
    destruct (lookup_lt_is_Some_2 l (Z.to_nat position)) as [x Hx]; [lia|].
    destruct (chain_first_or _ _ Hc) as [-> _].
    by rewrite (walk_spec s _ l None None x) by (apply Hc || done).
  - intros Hpos. by apply AddHandler_out_of_range.
Qed.

Lemma empty_batch_witness :
  invariant_with NewPipelineWith
    [(1%positive, headHandler); (2%positive, tailHandler)]
  ∧ AddHandler 2 [] NewPipelineWith
    = (Panicked (ConfigError "invalid position: 2"), NewPipelineWith).
Proof.
  split; [apply NewPipelineWith_invariant_with|].
  apply (empty_batch NewPipelineWith _ 2 NewPipelineWith_invariant_with).
  by vm_compute.
Defined.

(** X6. [ServeChannel(nil)] on a pipeline without a channel gets past the
    attachment check, stores [nil] and panics on the call through it; the
    pipeline is left without a channel, so a later [ServeChannel] of a real
    channel is still accepted. *)
Theorem ServeChannel_nil s c :
  channel (pl s) = None →
  ServeChannel None s = (Panicked NilDereference, s)
  ∧ ∃ s1, ServeChannel (Some c) (ServeChannel None s).2 = (Return tt, s1)
          ∧ get_Channel s1 = (Return (Some c), s1).
Proof.
  intros Hnone.
  assert (ServeChannel None s = (Panicked NilDereference, s)) as Hnil.
  { destruct s as [σ [h t ch n] sv]. simpl in Hnone. subst ch. done. }
  split; [done|]. rewrite Hnil. simpl.
  eexists. split.
  - unfold ServeChannel, mbind, M_bind, bind, get, AssertIf, put.
    rewrite Hnone. simpl. reflexivity.
  - reflexivity.
Qed.

Lemma ServeChannel_nil_witness :
  channel (pl NewPipelineWith) = None
  ∧ ServeChannel None NewPipelineWith = (Panicked NilDereference, NewPipelineWith).
Proof.
  split; [reflexivity|].
  apply (ServeChannel_nil NewPipelineWith 0 eq_refl).
Defined.

(** X7. Insert, then look up: after [AddHandler(position, hs)] with
    [0 <= position < size-1], [ContextAt(position+1+i)] is a context that wraps
    the [i]-th handler of the batch; the contexts that were at indices up to
    [position] are still there, and the contexts that were behind them have
    moved up by the length of the batch. *)
Theorem AddHandler_then_ContextAt s l position hs :
  invariant_with s l →
  valid_batch hs →
  (0 ≤ position < size (pl s) - 1)%Z →
  (size (pl s) + Z.of_nat (length hs) ≤ int_max)%Z →
  ∃ s',
    AddHandler position hs s = (Return tt, s')
    ∧ size (pl s') = (size (pl s) + Z.of_nat (length hs))%Z
    ∧ (∀ i h, hs !! i = Some h →
         ∃ c, ContextAt (position + 1 + Z.of_nat i) s' = (Return (Some c), s')
              ∧ handler_at s' c = Some h)
    ∧ (∀ j x, l !! j = Some x →
         ContextAt (if bool_decide (Z.of_nat j ≤ position)%Z then Z.of_nat j
                    else Z.of_nat j + Z.of_nat (length hs)) s'
         = (Return (Some x.1), s')
         ∧ handler_at s' x.1 = Some x.2).
Proof.
  intros Hinv Hv Hpos Hroom. pose proof Hinv as (Hc & Hsz & Hmax).
  destruct (AddHandler_chain s l position hs Hinv Hv)
    as (s' & news & Hrun & Hnews & Hc' & Hg); [lia|].
  unfold insertion_index in Hc'. rewrite bool_decide_eq_false_2 in Hc' by lia.
  set (k := Z.to_nat position) in *.
  set (l' := take (S k) l ++ zip news hs ++ drop (S k) l) in *.
  assert (length (take (S k) l) = S k) as Htake by (rewrite length_take; lia).
  assert (length (zip news hs) = length hs) as Hzip by (rewrite length_zip; lia).
  assert (size (pl s') = (size (pl s) + Z.of_nat (length hs))%Z) as Hsz'.
  { destruct Hg as (_ & _ & _ & _ & ->).
    apply iter_incr_small; unfold int_min; lia. }
  assert (invariant_with s' l') as Hinv'.
  { split_and!; [done| |lia].
    rewrite Hsz'. unfold l'. rewrite length_inserted, Hzip. lia. }
  exists s'. split_and!; [done|done| |].
  - intros i h Hi. pose proof (lookup_lt_Some _ _ _ Hi) as Hlt.
    destruct (lookup_lt_is_Some_2 news i) as [n Hn]; [lia|].
    assert (l' !! (S k + i) = Some (n, h)) as Hl'.
    { unfold l'. rewrite lookup_app_r by lia.
      rewrite lookup_app_l by lia.
      replace (S k + i - length (take (S k) l)) with i by lia.
      apply lookup_zip_with_Some. by exists n, h. }
    destruct (ContextAt_chain s' l' _ _ Hinv' Hl') as [Hat Hh].
    exists n. split; [|done].
    by replace (position + 1 + Z.of_nat i)%Z with (Z.of_nat (S k + i)) by lia.
  - intros j x Hj. pose proof (lookup_lt_Some _ _ _ Hj) as Hlt.
    case_bool_decide as Hle.
    + assert (l' !! j = Some x) as Hl'.
      { unfold l'. rewrite lookup_app_l by lia.
        by rewrite lookup_take_lt by lia. }
      by apply (ContextAt_chain s' l' j x).
    + assert (l' !! (j + length hs) = Some x) as Hl'.
      { unfold l'. rewrite lookup_app_r by lia.
        rewrite lookup_app_r by lia.
        rewrite lookup_drop, <- Hj. f_equal. lia. }
      destruct (ContextAt_chain s' l' _ _ Hinv' Hl') as [Hat Hh].
      split; [|done]. by rewrite <- Nat2Z.inj_add.
Qed.

Lemma AddHandler_then_ContextAt_witness :
  invariant_with NewPipelineWith
    [(1%positive, headHandler); (2%positive, tailHandler)]
  ∧ valid_batch [inbound_only "h"]
  ∧ (0 ≤ 0 < size (pl NewPipelineWith) - 1)%Z
  ∧ (size (pl NewPipelineWith) + Z.of_nat (length [inbound_only "h"]) ≤ int_max)%Z
  ∧ ∃ s', AddHandler 0 [inbound_only "h"] NewPipelineWith = (Return tt, s')
          ∧ size (pl s') = 3%Z.
Proof.
  assert (valid_batch [inbound_only "h"]) as Hv by (by repeat constructor).
  assert (0 ≤ 0 < size (pl NewPipelineWith) - 1)%Z as Hpos by (by vm_compute).
  assert (size (pl NewPipelineWith) + Z.of_nat (length [inbound_only "h"])
          ≤ int_max)%Z as Hroom by (by vm_compute).
  split_and!; [apply NewPipelineWith_invariant_with|done..|].
  destruct (AddHandler_then_ContextAt NewPipelineWith _ 0 [inbound_only "h"]
              NewPipelineWith_invariant_with Hv Hpos Hroom)
    as (s' & Hrun & Hsz & _).
  by exists s'.
Defined.

End PipelineExtra.

(** * Further properties of exceptions *)

Module ExceptionExtra.
Import Exception ExceptionMethods.

Lemma append_assoc (a b c : string) : (a +:+ b) +:+ c = a +:+ b +:+ c.
Proof.
  induction a as [|x a IH]; [done|].
  exact (f_equal (String.String x) IH).
Qed.

Lemma append_empty_r (a : string) : a +:+ "" = a.
Proof.
  induction a as [|x a IH]; [done|].
  exact (f_equal (String.String x) IH).
Qed.

(** X8. The wrapper [AsException] builds around a value that is not an
    [Exception] already answers [Error()] with the message of the error it
    wraps and, for a value that is no error, with the text [%v] prints for
    it. *)
Theorem wrapper_Error e stack :
  e ≠ nil →
  is_Exception e = false →
  Error (AsException e stack) = Some (Sprint_v e).
Proof.
  intros Hne HE. destruct e as [|cause st|ty ms text]; [done|done|].
  unfold AsException. rewrite HE.
  destruct (is_error (other ty ms text)) eqn:Herr; simpl.
  - unfold is_error in Herr. simpl in Herr. by rewrite Herr.
  - done.
Qed.

Lemma wrapper_Error_witness :
  other "int" no_methods "42" ≠ nil
  ∧ is_Exception (other "int" no_methods "42") = false
  ∧ Error (AsException (other "int" no_methods "42") []) = Some "42".
Proof.
  split_and!; [done|reflexivity|].
  apply (wrapper_Error (other "int" no_methods "42") []); [done|reflexivity].
Defined.

Section traceback.
Context (Unwrap_other : string → string → value).

Lemma entry_line v m : Error v = Some m → type_of v +:+ ": " +:+ m = entry v.
Proof. intros Hm. unfold entry. by rewrite Hm. Qed.

Lemma traceback_chain vs : ∀ fuel i v,
  (∀ k u, (v :: vs) !! k = Some u →
     is_Some (Error u) ∧ unwrapper Unwrap_other u = (v :: vs) !! S k) →
  length (v :: vs) ≤ fuel →
  traceback Unwrap_other fuel i v
  = Some (Some (entry v
                +:+ join (imap (λ j u, newline +:+ indent (i + S j) +:+ entry u) vs))).
Proof.
  induction vs as [|v' vs IH]; intros fuel i v Hch Hfuel;
    (destruct fuel as [|fuel]; [simpl in Hfuel; lia|]);
    destruct (Hch 0 v eq_refl) as [[m Hm] Hun]; simpl in Hun;
    cbn [traceback]; rewrite Hm, Hun, (entry_line v m Hm).
  - cbn [imap join]. by rewrite append_empty_r.
  - rewrite (IH fuel (S i) v'); [|..|simpl in *; lia].
    + rewrite imap_cons. cbn [join]. rewrite !append_assoc.
      replace (i + 1) with (S i) by lia.
      do 7 f_equal. apply imap_ext. intros j u _. simpl.
      by replace (i + S (S j)) with (S (i + S j)) by lia.
    + intros k u Hk. apply (Hch (S k) u Hk).
Qed.

(** When the [Unwrap] of the last cause returns [nil], the next round of the
    loop calls [Error] through [nil]. *)
Lemma traceback_nil vs : ∀ fuel i v,
  (∀ k u, (v :: vs) !! k = Some u →
     is_Some (Error u)
     ∧ unwrapper Unwrap_other u = Some (default nil ((v :: vs) !! S k))) →
  length (v :: vs) < fuel →
  traceback Unwrap_other fuel i v = Some None.
Proof.
  induction vs as [|v' vs IH]; intros fuel i v Hch Hfuel;
    (destruct fuel as [|fuel]; [simpl in Hfuel; lia|]);
    destruct (Hch 0 v eq_refl) as [[m Hm] Hun]; simpl in Hun;
    cbn [traceback]; rewrite Hm, Hun.
  - destruct fuel as [|fuel]; [simpl in Hfuel; lia|]. done.
  - rewrite (IH fuel (S i) v'); [done| |simpl in *; lia].
    intros k u Hk. apply (Hch (S k) u Hk).
Qed.

(** X9. [PrintStackTrace] on a chain of causes, each with a message and each but
    the last with an [Unwrap] that yields the next: the output is the prefix
    messages, the line [Error Traceback:], then one entry [type: message] per
    cause, the entry of the [j]-th hop on a line of its own behind [j] levels
    of two spaces, then a line break and the stack bytes.  It goes to the
    given writer, and to standard error when the writer is [nil]. *)
Theorem PrintStackTrace_layout {W} fuel v vs stack (writer : option W) msg :
  (∀ k u, (v :: vs) !! k = Some u →
     is_Some (Error u) ∧ unwrapper Unwrap_other u = (v :: vs) !! S k) →
  length (v :: vs) ≤ fuel →
  PrintStackTrace Unwrap_other fuel v stack writer msg
  = Wrote (match writer with None => Stderr | Some w => Writer w end)
      (join msg +:+ "Error Traceback:" +:+ newline
       +:+ (entry v
            +:+ join (imap (λ j u, newline +:+ indent (S j) +:+ entry u) vs))
       +:+ newline +:+ String.string_of_list_byte stack).
Proof.
  intros Hch Hfuel. unfold PrintStackTrace.
  by rewrite (traceback_chain vs fuel 0 v Hch Hfuel).
Qed.

(** X10. When the last cause of the chain has an [Unwrap] method and it returns
    [nil], [PrintStackTrace] panics on the call of [Error] through [nil];
    nothing is written, the text built so far being dropped. *)
Theorem PrintStackTrace_nil_cause {W} fuel v vs stack (writer : option W) msg :
  (∀ k u, (v :: vs) !! k = Some u →
     is_Some (Error u)
     ∧ unwrapper Unwrap_other u = Some (default nil ((v :: vs) !! S k))) →
  length (v :: vs) < fuel →
  PrintStackTrace Unwrap_other fuel v stack writer msg = NilPanic.
Proof.
  intros Hch Hfuel. unfold PrintStackTrace.
  by rewrite (traceback_nil vs fuel 0 v Hch Hfuel).
Qed.
End traceback.

Lemma PrintStackTrace_layout_witness :
  let unwrap (type text : string) :=
    if String.eqb type "*fmt.wrapError" then EOF else nil in
  (∀ k u, [wrapError; EOF] !! k = Some u →
     is_Some (Error u) ∧ unwrapper unwrap u = [wrapError; EOF] !! S k)
  ∧ 2 ≤ 2
  ∧ PrintStackTrace unwrap 2 wrapError [] (@None unit) ["conn 7: "]
    = Wrote Stderr
        ("conn 7: Error Traceback:" +:+ newline
         +:+ "*fmt.wrapError: read: EOF" +:+ newline
         +:+ "  *errors.errorString: EOF" +:+ newline).
Proof.
  intros unwrap.
  assert (∀ k u, [wrapError; EOF] !! k = Some u →
            is_Some (Error u) ∧ unwrapper unwrap u = [wrapError; EOF] !! S k)
    as Hch.
  { intros [|[|k]] u Hk; simpl in Hk; [| |done];
      injection Hk as <-; (split; [by eexists|reflexivity]). }
  split_and!; [done|lia|].
  rewrite (PrintStackTrace_layout unwrap 2 wrapError [EOF] [] None ["conn 7: "]
             Hch (le_n 2)).
  reflexivity.
Defined.

Lemma PrintStackTrace_nil_cause_witness :
  let unwrap (type text : string) := nil in
  (∀ k u, [wrapError] !! k = Some u →
     is_Some (Error u)
     ∧ unwrapper unwrap u = Some (default nil ([wrapError] !! S k)))
  ∧ 1 < 2
  ∧ PrintStackTrace unwrap 2 wrapError [] (@None unit) [] = NilPanic.
Proof.
  intros unwrap.
  assert (∀ k u, [wrapError] !! k = Some u →
            is_Some (Error u)
            ∧ unwrapper unwrap u = Some (default nil ([wrapError] !! S k)))
    as Hch.
  { intros [|k] u Hk; simpl in Hk; [|done].
    injection Hk as <-. split; [by eexists|reflexivity]. }
  split_and!; [done|lia|].
  apply (PrintStackTrace_nil_cause unwrap 2 wrapError [] [] None [] Hch).
  simpl. lia.
Defined.

End ExceptionExtra.

(** * Properties of the transport options *)

Module TransportExtra.
Import Transport.

Section options.
Context {Ctx : Type}.
Context (url_Parse : string → option URL * option string).

Abbreviation Options' := (@Options Ctx).
Abbreviation Option' := (@Option Ctx).

(** Options that succeed hand the [Options] over to the rest of the list. *)
Lemma Apply_app (pre post : list Option') (lo lo1 : Options') :
  Apply pre lo = (lo1, None) →
  Apply (pre ++ post) lo = Apply post lo1.
Proof.
  revert lo. induction pre as [|o pre IH]; intros lo Hpre.
  - simpl in Hpre. by injection Hpre as ->.
  - simpl in Hpre |- *. destruct (o lo) as [lo' [err|]]; [done|].
    by apply IH.
Qed.

(** X11. [Apply] runs the options in order and stops at the first one that fails:
    the options behind it are not run, its error is the result, and what the
    options before it and the failing one itself did to the [Options] stays.
    When a first part succeeds, applying the whole list is applying the rest
    where the first part left off. *)
Theorem Apply_stops_at_first_error (pre post : list Option') (bad : Option')
    (lo lo1 lo2 : Options') e :
  Apply pre lo = (lo1, None) →
  bad lo1 = (lo2, Some e) →
  Apply (pre ++ bad :: post) lo = (lo2, Some e)
  ∧ Apply (pre ++ post) lo = Apply post lo1.
Proof.
  intros Hpre Hbad. rewrite !(Apply_app pre _ lo lo1) by done.
  split; [|done]. simpl. by rewrite Hbad.
Qed.

(** The last step of [withAddress]. *)
Lemma withAddress_shape address (lo : Options') :
  ∃ a err,
    withAddress url_Parse address lo
    = (mkOptions
         (match a with
          | Some u =>
              if String.eqb "" (Path u) then Some (mkURL (Scheme u) (Host u) "/")
              else Some u
          | None => None
          end) (Context_ lo), err).
Proof.
  unfold withAddress. destruct (url_Parse address) as [a [msg|]].
  - destruct (Contains msg "cannot contain colon");
      [|destruct (Contains msg "missing protocol scheme")];
      try destruct (url_Parse ("//" +:+ address)) as [a' err']; by eexists _, _.
  - by eexists _, _.
Qed.

(** X12. [withAddress] leaves no URL without a path: whenever the options hold an
    address afterwards, its path is not empty.  The context is not touched. *)
Theorem withAddress_path_never_empty address (lo : Options') u :
  Address (withAddress url_Parse address lo).1 = Some u →
  Path u ≠ "" ∧ Context_ (withAddress url_Parse address lo).1 = Context_ lo.
Proof.
  destruct (withAddress_shape address lo) as (a0 & err & ->).
  intros Hu. simpl in Hu |- *. split; [|done].
  destruct a0 as [u0|]; [|done].
  destruct (Path u0) eqn:E; simplify_eq; [done|].
  by rewrite E.
Qed.

(** X13. A bare [host:port] is tolerated: when [url.Parse] rejects the address
    with a message that mentions a colon in the first path segment or a
    missing protocol scheme, [withAddress] parses the address again behind
    ["//"] and the outcome of that second parse is the outcome of the option,
    the first error being forgotten.  Any other parse error is returned as it
    is. *)
Theorem withAddress_retries_bare_address address (lo : Options') a msg :
  url_Parse address = (a, Some msg) →
  (Contains msg "cannot contain colon" = true
   ∨ Contains msg "missing protocol scheme" = true →
   (withAddress url_Parse address lo).2 = (url_Parse ("//" +:+ address)).2
   ∧ ∀ u, url_Parse ("//" +:+ address) = (Some u, None) →
       withAddress url_Parse address lo
       = (mkOptions
            (Some (if String.eqb "" (Path u) then mkURL (Scheme u) (Host u) "/"
                   else u))
            (Context_ lo), None))
  ∧ (Contains msg "cannot contain colon" = false →
     Contains msg "missing protocol scheme" = false →
     (withAddress url_Parse address lo).2 = Some msg).
Proof.
  intros Hparse. unfold withAddress. rewrite Hparse. split.
  - intros Hretry.
    assert ((if Contains msg "cannot contain colon"
             then url_Parse ("//" +:+ address)
             else if Contains msg "missing protocol scheme"
                  then url_Parse ("//" +:+ address) else (a, Some msg))
            = url_Parse ("//" +:+ address)) as ->.
    { destruct Hretry as [-> | ->]; [done|].
      by destruct (Contains msg "cannot contain colon"). }
    split.
    + by destruct (url_Parse ("//" +:+ address)) as [a' err'].
    + intros u ->. by destruct (String.eqb "" (Path u)).
  - intros -> ->. done.
Qed.

(** X14. [ParseOptions] applies the address first and the caller's options after
    it, in order: when the address is refused none of the caller's options is
    run, and otherwise the result is that of the caller's options on the
    parsed address.  A [WithContext] at the end of options that succeed
    replaces the context [ParseOptions] was called with. *)
Theorem ParseOptions_order ctx url (options : list Option') :
  (∀ lo e, withAddress url_Parse url (mkOptions None ctx) = (lo, Some e) →
     ParseOptions url_Parse ctx url options = (lo, Some e))
  ∧ (∀ lo, withAddress url_Parse url (mkOptions None ctx) = (lo, None) →
       ParseOptions url_Parse ctx url options = Apply options lo
       ∧ Context_ lo = ctx
       ∧ ∀ lo' ctx', Apply options lo = (lo', None) →
           ParseOptions url_Parse ctx url (options ++ [WithContext ctx'])
           = (mkOptions (Address lo') ctx', None)).
Proof.
  unfold ParseOptions. split.
  - intros lo e Hfirst. simpl. by rewrite Hfirst.
  - intros lo Hfirst. split_and!.
    + simpl. by rewrite Hfirst.
    + destruct (withAddress_shape url (mkOptions None ctx)) as (a0 & err & E).
      rewrite Hfirst in E. by injection E as -> _.
    + intros lo' ctx' Happly. simpl. rewrite Hfirst.
      by rewrite (Apply_app options [WithContext ctx'] lo lo' Happly).
Qed.
End options.

Lemma Apply_stops_at_first_error_witness :
  let failing (lo : @Options unit) := (lo, Some "refused") in
  Apply [WithContext tt] (mkOptions None tt) = (mkOptions None tt, None)
  ∧ failing (mkOptions None tt) = (mkOptions None tt, Some "refused")
  ∧ Apply ([WithContext tt] ++ failing :: [WithContext tt]) (mkOptions None tt)
    = (mkOptions None tt, Some "refused").
Proof.
  intros failing. split_and!; [reflexivity..|].
  apply (Apply_stops_at_first_error [WithContext tt] [WithContext tt] failing
           (mkOptions None tt) (mkOptions None tt) (mkOptions None tt) "refused");
    reflexivity.
Defined.

Lemma withAddress_path_never_empty_witness :
  Address (withAddress strict_Parse "127.0.0.1:80" (mkOptions None tt)).1
  = Some (mkURL "" "127.0.0.1:80" "/")
  ∧ Path (mkURL "" "127.0.0.1:80" "/") ≠ "".
Proof.
  split; [reflexivity|].
  apply (withAddress_path_never_empty strict_Parse "127.0.0.1:80"
           (mkOptions None tt)).
  reflexivity.
Defined.

Lemma withAddress_retries_bare_address_witness :
  strict_Parse "127.0.0.1:80"
  = (None, Some "parse: first path segment in URL cannot contain colon")
  ∧ (withAddress strict_Parse "127.0.0.1:80" (mkOptions None tt)).2 = None.
Proof.
  split; [reflexivity|].
  rewrite (proj1 (proj1 (withAddress_retries_bare_address strict_Parse
                           "127.0.0.1:80" (mkOptions None tt) None _ eq_refl)
                    (or_introl eq_refl))).
  reflexivity.
Defined.

Lemma ParseOptions_order_witness :
  withAddress strict_Parse "host:1" (mkOptions None 1)
  = (mkOptions (Some (mkURL "" "host:1" "/")) 1, None)
  ∧ ParseOptions strict_Parse 1 "host:1" ([] ++ [WithContext 2])
    = (mkOptions (Some (mkURL "" "host:1" "/")) 2, None).
Proof.
  split; [reflexivity|].
  exact (proj2 (proj2 (proj2 (ParseOptions_order strict_Parse 1 "host:1" [])
                         _ eq_refl))
           (mkOptions (Some (mkURL "" "host:1" "/")) 1) 2 eq_refl).
Defined.

End TransportExtra.

(** * Properties of the tcp transport *)

Module TcpExtra.
Import Tcp.

Section conn.
Context (sys : list sockcall → sockcall → option string).

Lemma applyOptions_run tcpOptions client made :
  applyOptions sys tcpOptions client made = run sys (wanted tcpOptions) made.
Proof.
  unfold applyOptions, wanted, call.
  destruct (0 <? SockBuf tcpOptions)%Z; simpl; repeat case_match; done.
Qed.

Lemma run_prefix calls : ∀ made err made',
  run sys calls made = (err, made') →
  ∃ n,
    n ≤ length calls
    ∧ made' = made ++ take n calls
    ∧ (∀ i c, S i < n → calls !! i = Some c → sys (made ++ take i calls) c = None)
    ∧ match err with
      | None =>
          n = length calls
          ∧ ∀ i c, calls !! i = Some c → sys (made ++ take i calls) c = None
      | Some e =>
          ∃ i c, n = S i ∧ calls !! i = Some c
                 ∧ sys (made ++ take i calls) c = Some e
      end.
Proof.
  induction calls as [|c calls IH]; intros made err made' Hrun; simpl in Hrun.
  - injection Hrun as <- <-. exists 0. rewrite app_nil_r.
    split_and!; [done|done|intros; lia|done|done].
  - destruct (sys made c) as [e|] eqn:Hc.
    + injection Hrun as <- <-. exists 1. simpl. rewrite take_0.
      split_and!; [lia|done|intros; lia|].
      exists 0, c. by rewrite app_nil_r.
    + destruct (IH _ _ _ Hrun) as (n & Hn & -> & Hok & Hend).
      exists (S n). simpl.
      assert (∀ i, (made ++ [c]) ++ take i calls = made ++ c :: take i calls)
        as Happ by (intros i; by rewrite <- app_assoc).
      split_and!; [lia|by rewrite Happ| |].
      * intros [|i] c' Hi Hc'; simpl in Hc' |- *.
        { injection Hc' as <-. by rewrite app_nil_r. }
        rewrite <- Happ. apply Hok; [lia|done].
      * destruct err as [e|].
        -- destruct Hend as (i & c' & -> & Hc' & He).
           exists (S i), c'. simpl. by rewrite <- Happ.
        -- destruct Hend as [-> Hall]. split; [done|].
           intros [|i] c' Hc'; simpl in Hc' |- *.
           { injection Hc' as <-. by rewrite app_nil_r. }
           rewrite <- Happ. by apply Hall.
Qed.

(** X15. [applyOptions] makes its calls in a fixed order (keep-alive, keep-alive
    period, linger, no-delay, then read and write buffer size, the last two
    only for a positive [SockBuf]) and gives up at the first one the system
    refuses: the calls made are a prefix of that sequence, every call before
    the last one made has succeeded, the error returned is that of the last
    call made, and without an error the whole sequence has been made.  The
    [client] argument plays no part. *)
Theorem applyOptions_stops_at_first_error tcpOptions client made err made' :
  applyOptions sys tcpOptions client made = (err, made') →
  ∃ n,
    n ≤ length (wanted tcpOptions)
    ∧ made' = made ++ take n (wanted tcpOptions)
    ∧ (∀ i c, S i < n → wanted tcpOptions !! i = Some c →
         sys (made ++ take i (wanted tcpOptions)) c = None)
    ∧ match err with
      | None =>
          n = length (wanted tcpOptions)
          ∧ ∀ i c, wanted tcpOptions !! i = Some c →
              sys (made ++ take i (wanted tcpOptions)) c = None
      | Some e =>
          ∃ i c, n = S i ∧ wanted tcpOptions !! i = Some c
                 ∧ sys (made ++ take i (wanted tcpOptions)) c = Some e
      end.
Proof. rewrite applyOptions_run. apply run_prefix. Qed.

(** X16. With a [SockBuf] of zero or less [applyOptions] leaves the socket buffers
    alone, whatever the system answers and whether the connection was dialed
    or accepted: neither [SetReadBuffer] nor [SetWriteBuffer] is among the
    calls it makes; with a positive [SockBuf] and a system that refuses
    nothing, both are made, with that size, after the four other settings. *)
Theorem applyOptions_socket_buffers tcpOptions client made :
  ((SockBuf tcpOptions ≤ 0)%Z →
   ∃ n, (applyOptions sys tcpOptions client made).2
        = made ++ take n [SetKeepAlive (KeepAlive tcpOptions);
                          SetKeepAlivePeriod (KeepAlivePeriod tcpOptions);
                          SetLinger (Linger tcpOptions);
                          SetNoDelay (NoDelay tcpOptions)])
  ∧ ((0 < SockBuf tcpOptions)%Z →
     (∀ before c, sys before c = None) →
     applyOptions sys tcpOptions client made
     = (None, made ++ [SetKeepAlive (KeepAlive tcpOptions);
                       SetKeepAlivePeriod (KeepAlivePeriod tcpOptions);
                       SetLinger (Linger tcpOptions);
                       SetNoDelay (NoDelay tcpOptions);
                       SetReadBuffer (SockBuf tcpOptions);
                       SetWriteBuffer (SockBuf tcpOptions)])).
Proof.
  split.
  - intros Hbuf.
    destruct (applyOptions sys tcpOptions client made) as [err made'] eqn:Hrun.
    rewrite applyOptions_run in Hrun.
    destruct (run_prefix _ _ _ _ Hrun) as (n & _ & -> & _).
    exists n. simpl. unfold wanted.
    rewrite (proj2 (Z.ltb_ge 0 (SockBuf tcpOptions))) by done.
    by rewrite app_nil_r.
  - intros Hbuf Hok. rewrite applyOptions_run. unfold wanted.
    rewrite (proj2 (Z.ltb_lt 0 (SockBuf tcpOptions))) by done.
    simpl. rewrite !Hok. by rewrite <- !app_assoc.
Qed.
End conn.

Section acceptor.
Context {TCPListener : Type}.
Context (listener_Close : TCPListener → option string).

(** X17. [tcpAcceptor.Close] closes the listening socket at most once: after a
    first [Close], whether it succeeded or not, every further [Close] returns
    [nil] without a call on the socket, and the acceptor holds no listener. *)
Theorem acceptor_Close_once (t : @tcpAcceptor TCPListener) closed :
  let '(err, t1, closed1) := Close listener_Close t closed in
  listener t1 = None
  ∧ length closed1 ≤ S (length closed)
  ∧ Close listener_Close t1 closed1 = (None, t1, closed1).
Proof.
  unfold Close. destruct (listener t) as [l|] eqn:Hl; simpl.
  - split_and!; [done|rewrite length_app; simpl; lia|done].
  - rewrite Hl. split_and!; [done|lia|done].
Qed.
End acceptor.

Lemma applyOptions_stops_at_first_error_witness :
  applyOptions refuse_linger (mkOptions true 15 (-1) true 4096) true []
  = (Some "setsockopt: invalid argument",
     [SetKeepAlive true; SetKeepAlivePeriod 15; SetLinger (-1)])
  ∧ ∃ n, n ≤ 6
         ∧ [SetKeepAlive true; SetKeepAlivePeriod 15; SetLinger (-1)]
           = [] ++ take n (wanted (mkOptions true 15 (-1) true 4096)).
Proof.
  split; [reflexivity|].
  destruct (applyOptions_stops_at_first_error refuse_linger
              (mkOptions true 15 (-1) true 4096) true [] _ _ eq_refl)
    as (n & Hn & Hmade & _).
  by exists n.
Defined.

Lemma applyOptions_socket_buffers_witness :
  (SockBuf (mkOptions true 15 (-1) true 0) ≤ 0)%Z
  ∧ ∃ n, (applyOptions refuse_linger (mkOptions true 15 (-1) true 0) false []).2
         = [] ++ take n [SetKeepAlive true; SetKeepAlivePeriod 15;
                         SetLinger (-1); SetNoDelay true].
Proof.
  assert (SockBuf (mkOptions true 15 (-1) true 0) ≤ 0)%Z as Hbuf by (by vm_compute).
  split; [done|].
  apply (proj1 (applyOptions_socket_buffers refuse_linger
                  (mkOptions true 15 (-1) true 0) false []) Hbuf).
Defined.

End TcpExtra.

(** * Properties of the listener registry *)

Module RegistryFacts.
Import Bootstrap Registry.

Section bootstrap.
Context {Option Options Acceptor : Type}.
Context (acceptor_Close : list Acceptor → Acceptor → option string).

Abbreviation bootstrap' := (@bootstrap Option Options Acceptor).

(** What one [Close] does to the bootstrap. *)
Lemma Close_effect l (bs : bootstrap') :
  heap (Close acceptor_Close l bs).2 = heap bs
  ∧ cancelled (Close acceptor_Close l bs).2 = cancelled bs
  ∧ closed (Close acceptor_Close l bs).2
    = closed bs ++ from_option (λ a, [a]) [] (acceptor_at bs l)
  ∧ ∀ this, heap bs !! l = Some this →
      listeners (Close acceptor_Close l bs).2
      = match acceptor this with
        | Some _ => delete (url this) (listeners bs)
        | None => listeners bs
        end.
Proof.
  unfold Close, acceptor_at.
  destruct (heap bs !! l) as [this|]; simpl.
  - destruct (acceptor this) as [a|] eqn:Ha; simpl.
    + split_and!; try done. intros ? [= <-]. by rewrite Ha.
    + rewrite app_nil_r. split_and!; try done. intros ? [= <-]. by rewrite Ha.
  - rewrite app_nil_r. by split_and!.
Qed.

Lemma foldl_Close (entries : list (string * loc)) : ∀ bs : bootstrap',
  NoDup entries.*1 →
  (∀ e, e ∈ entries → ∃ this, heap bs !! e.2 = Some this ∧ url this = e.1) →
  let bs' := foldl (λ bs entry, (Close acceptor_Close entry.2 bs).2) bs entries in
  heap bs' = heap bs
  ∧ cancelled bs' = cancelled bs
  ∧ closed bs' = closed bs ++ omap (λ e, acceptor_at bs e.2) entries
  ∧ (∀ k, k ∉ entries.*1 → listeners bs' !! k = listeners bs !! k)
  ∧ (∀ e, e ∈ entries →
       listeners bs' !! e.1
       = match acceptor_at bs e.2 with
         | Some _ => None
         | None => listeners bs !! e.1
         end).
Proof.
  induction entries as [|e entries IH]; intros bs Hnd Hok; simpl.
  - rewrite app_nil_r. split_and!; try done. intros e He. by apply elem_of_nil in He.
  - apply NoDup_cons in Hnd as [He Hnd].
    destruct (Close_effect e.2 bs) as (Hh & Hc & Hcl & Hl).
    destruct (Hok e) as (this & Hthis & Hurl); [apply list_elem_of_here|].
    specialize (Hl this Hthis).
    set (bs1 := (Close acceptor_Close e.2 bs).2) in *.
    assert (∀ l, acceptor_at bs1 l = acceptor_at bs l) as Hat.
    { intros l. unfold acceptor_at. by rewrite Hh. }
    destruct (IH bs1 Hnd) as (Hh' & Hc' & Hcl' & Hout & Hin).
    { intros e' He'. rewrite Hh. apply Hok. by apply list_elem_of_further. }
    assert (acceptor_at bs e.2 = acceptor this) as Hae.
    { unfold acceptor_at. by rewrite Hthis. }
    split_and!.
    + congruence.
    + congruence.
    + rewrite Hcl', Hcl, <- app_assoc. f_equal.
      assert (omap (λ e0, acceptor_at bs1 e0.2) entries
              = omap (λ e0, acceptor_at bs e0.2) entries) as ->.
      { clear -Hat. induction entries as [|x xs IHxs]; [done|].
        simpl. rewrite Hat.
        destruct (acceptor_at bs x.2); [f_equal|]; apply IHxs. }
      by destruct (acceptor_at bs e.2).
    + intros k Hk. rewrite Hout.
      * rewrite Hl. destruct (acceptor this); [|done].
        apply lookup_delete_ne. rewrite Hurl. intros Heq. apply Hk.
        rewrite <- Heq. apply list_elem_of_here.
      * intros Hk'. apply Hk. by apply list_elem_of_further.
    + intros e' He'. apply elem_of_cons in He' as [->|He'].
      * rewrite Hout by done. rewrite Hl, Hae.
        destruct (acceptor this); [|done]. rewrite Hurl. apply lookup_delete_eq.
      * rewrite Hin, Hat by done. destruct (acceptor_at bs e'.2); [done|].
        rewrite Hl. destruct (acceptor this); [|done].
        apply lookup_delete_ne. rewrite Hurl. intros Heq. apply He.
        rewrite Heq. by apply list_elem_of_fmap_2.
Qed.
End bootstrap.
End RegistryFacts.

(** * The listener registry: [Listen], [Close] and [Shutdown] *)

Module RegistryExtra.
Import Bootstrap Registry RegistryFacts.

Section bootstrap.
Context {Option Options Acceptor : Type}.
Context (acceptor_Close : list Acceptor → Acceptor → option string).

Abbreviation bootstrap'' := (@bootstrap Option Options Acceptor).
Abbreviation Close' := (Close acceptor_Close).
Abbreviation Shutdown' := (Shutdown acceptor_Close).

(** X18. [Shutdown] cancels the bootstrap context and closes the listeners of the
    registry that have an acceptor: each of them is taken out of the registry
    and its acceptor is closed, once per entry.  A listener that was never
    started (no acceptor) is left in the registry, and no [listener] struct
    changes. *)
Theorem Shutdown_closes_started_listeners (bs : bootstrap'') :
  registry_ok bs →
  cancelled (Shutdown' bs) = true
  ∧ heap (Shutdown' bs) = heap bs
  ∧ (∀ url l,
       listeners (Shutdown' bs) !! url = Some l
       ↔ listeners bs !! url = Some l ∧ acceptor_at bs l = None)
  ∧ (∃ new,
       closed (Shutdown' bs) = closed bs ++ new
       ∧ new ≡ₚ omap (λ e, acceptor_at bs e.2) (map_to_list (listeners bs))
       ∧ ∀ a, a ∈ new ↔
           ∃ url l, listeners bs !! url = Some l ∧ acceptor_at bs l = Some a).
Proof.
  intros Hok.
  set (bs0 := mkBootstrap (listeners bs) (heap bs) true (closed bs)).
  destruct (foldl_Close acceptor_Close (map_to_list (listeners bs)) bs0)
    as (Hh & Hc & Hcl & Hout & Hin).
  { apply NoDup_fst_map_to_list. }
  { intros [k l] He. apply elem_of_map_to_list in He. by apply Hok. }
  change (foldl (λ bs entry, (Close' entry.2 bs).2) bs0
            (map_to_list (listeners bs))) with (Shutdown' bs) in *.
  change (acceptor_at bs0) with (acceptor_at bs) in *.
  simpl in Hh, Hc, Hcl, Hout. split_and!; [done|done| |].
  - intros k l. destruct (listeners bs !! k) as [l0|] eqn:Hk.
    + assert ((k, l0) ∈ map_to_list (listeners bs)) as He
        by (by apply elem_of_map_to_list).
      specialize (Hin _ He). simpl in Hin. rewrite Hin, Hk.
      destruct (acceptor_at bs l0) eqn:Ha.
      * split; [done|]. intros [[= ->] Hnone]. congruence.
      * split; [by intros [= <-]|]. by intros [? _].
    + rewrite Hout, Hk.
      * split; [done|]. by intros [? _].
      * intros Hin'. apply list_elem_of_fmap in Hin' as ([k' l'] & -> & He).
        apply elem_of_map_to_list in He. simpl in He, Hk. congruence.
  - eexists. split; [exact Hcl|]. split; [done|].
    intros a. rewrite list_elem_of_omap. split.
    + intros ([k l] & He & Ha). apply elem_of_map_to_list in He. by exists k, l.
    + intros (k & l & Hk & Ha). exists (k, l). split; [|done].
      by apply elem_of_map_to_list.
Qed.

(** X19. [Listen] files the new listener under its url, so a second [Listen] on
    the same url takes the place of the first: the registry then holds the
    second listener only, and the first, though it still exists, can no
    longer be reached through the registry (nor, therefore, by [Shutdown]). *)
Theorem Listen_same_url_replaces (bs : bootstrap'') url o1 o2 :
  registry_ok bs →
  let l1 := (Listen url o1 bs).1 in
  let bs1 := (Listen url o1 bs).2 in
  let l2 := (Listen url o2 bs1).1 in
  let bs2 := (Listen url o2 bs1).2 in
  l1 ≠ l2
  ∧ listeners bs2 !! url = Some l2
  ∧ (∀ k, listeners bs2 !! k ≠ Some l1)
  ∧ heap bs2 !! l1 = Some (mkListener url o1 None None)
  ∧ heap bs2 !! l2 = Some (mkListener url o2 None None)
  ∧ (∀ k, k ≠ url → listeners bs2 !! k = listeners bs !! k)
  ∧ registry_ok bs2.
Proof.
  intros Hok l1 bs1 l2 bs2.
  assert (heap bs !! l1 = None) as Hf1.
  { apply not_elem_of_dom. apply is_fresh. }
  assert (heap bs1 !! l2 = None) as Hf2.
  { apply not_elem_of_dom. apply is_fresh. }
  assert (l1 ≠ l2) as Hne.
  { intros Heq. subst bs1. simpl in Hf2. rewrite <- Heq in Hf2.
    fold l1 in Hf2. by rewrite lookup_insert_eq in Hf2. }
  assert (∀ k, listeners bs !! k ≠ Some l1) as Hunreg.
  { intros k Hk. destruct (Hok _ _ Hk) as (this & Hthis & _). congruence. }
  assert (∀ l this, heap bs !! l = Some this → l1 ≠ l ∧ l2 ≠ l) as Hold.
  { intros l this Hl. assert (l1 ≠ l) as Hl1 by congruence. split; [done|].
    intros <-. subst bs1. simpl in Hf2. fold l1 in Hf2.
    rewrite lookup_insert_ne in Hf2 by done. congruence. }
  subst bs2 bs1. simpl. fold l1. simpl in l2. fold l2.
  split_and!.
  - done.
  - apply lookup_insert_eq.
  - intros k. destruct (decide (k = url)) as [->|Hk].
    + rewrite lookup_insert_eq. congruence.
    + rewrite !lookup_insert_ne by done. apply Hunreg.
  - rewrite lookup_insert_ne by done. apply lookup_insert_eq.
  - apply lookup_insert_eq.
  - intros k Hk. by rewrite !lookup_insert_ne.
  - intros k l. simpl. destruct (decide (k = url)) as [->|Hk].
    + rewrite lookup_insert_eq. intros [= <-].
      eexists. split; [apply lookup_insert_eq|done].
    + rewrite !lookup_insert_ne by done. intros Hl.
      destruct (Hok _ _ Hl) as (this & Hthis & Hurl).
      exists this. split; [|done].
      destruct (Hold _ _ Hthis). by rewrite !lookup_insert_ne.
Qed.

(** X20. [Close] guards on the acceptor only.  On a listener that was never
    started it returns nil and leaves the listener in the registry.  On a
    started listener it deletes whatever the registry holds under the
    listener's url, closes the acceptor and returns that result; nothing
    records that the listener was closed, so a second [Close] closes the
    acceptor a second time. *)
Theorem Close_guards_on_acceptor_only (bs : bootstrap'') l this :
  heap bs !! l = Some this →
  (acceptor this = None → Close acceptor_Close l bs = (None, bs))
  ∧ (∀ a, acceptor this = Some a →
       let bs1 := (Close acceptor_Close l bs).2 in
       (Close acceptor_Close l bs).1 = acceptor_Close (closed bs) a
       ∧ listeners bs1 = delete (url this) (listeners bs)
       ∧ heap bs1 = heap bs
       ∧ closed bs1 = closed bs ++ [a]
       ∧ (Close acceptor_Close l bs1).1 = acceptor_Close (closed bs ++ [a]) a
       ∧ listeners (Close acceptor_Close l bs1).2 = listeners bs1
       ∧ closed (Close acceptor_Close l bs1).2 = closed bs ++ [a; a]).
Proof.
  intros Hthis. split.
  - intros Hnone. unfold Close. by rewrite Hthis, Hnone.
  - intros a Ha bs1. subst bs1. unfold Close. rewrite Hthis, Ha. simpl.
    rewrite Hthis, Ha. simpl. rewrite delete_delete_eq, <- app_assoc.
    by split_and!.
Qed.

(** X21. A listener that has just been made has no acceptor: closing it does
    nothing, returns nil, and the registry still holds it. *)
Theorem Listen_then_Close_is_a_no_op (bs : bootstrap'') url o :
  let l := (Listen url o bs).1 in
  let bs1 := (Listen url o bs).2 in
  Close' l bs1 = (None, bs1) ∧ listeners bs1 !! url = Some l.
Proof.
  intros l bs1. subst l bs1. unfold Close, Listen. simpl.
  by rewrite !lookup_insert_eq.
Qed.
End bootstrap.

Lemma Shutdown_closes_started_listeners_witness :
  let bs := mkBootstrap (Option := unit) (Options := unit)
              {[ "tcp://:80" := 1%positive; "tcp://:81" := 2%positive ]}
              {[ 1%positive := mkListener "tcp://:80" [] None (Some 7);
                 2%positive := mkListener "tcp://:81" [] None None ]}
              false [] in
  registry_ok bs
  ∧ listeners (Shutdown (λ _ (_ : nat), None) bs) !! "tcp://:80" = None
  ∧ listeners (Shutdown (λ _ (_ : nat), None) bs) !! "tcp://:81" = Some 2%positive.
Proof.
  intros bs.
  assert (registry_ok bs) as Hok.
  { intros k l. subst bs. simpl. intros Hk.
    apply lookup_insert_Some in Hk as [[<- <-]|[? Hk]].
    { by eexists. }
    apply lookup_singleton_Some in Hk as [<- <-]. by eexists. }
  split; [done|].
  destruct (Shutdown_closes_started_listeners (λ _ (_ : nat), None) bs Hok)
    as (_ & _ & Hreg & _).
  split.
  - destruct (listeners (Shutdown (λ _ (_ : nat), None) bs) !! "tcp://:80")
      as [l|] eqn:E; [|done].
    apply Hreg in E as [E Ha]. subst bs. simpl in E.
    rewrite lookup_insert_eq in E. injection E as <-. discriminate.
  - by apply Hreg.
Defined.

Lemma Listen_same_url_replaces_witness :
  let bs := mkBootstrap (Option := unit) (Options := unit) (Acceptor := nat)
              ∅ ∅ false [] in
  registry_ok bs
  ∧ listeners (Listen "tcp://:80" [tt] (Listen "tcp://:80" [] bs).2).2
      !! "tcp://:80"
    = Some (Listen "tcp://:80" [tt] (Listen "tcp://:80" [] bs).2).1.
Proof.
  intros bs.
  assert (registry_ok bs) as Hok.
  { intros k l Hk. subst bs. simpl in Hk. by rewrite lookup_empty in Hk. }
  split; [done|].
  apply (Listen_same_url_replaces bs "tcp://:80" [] [tt] Hok).
Defined.

Lemma Close_guards_on_acceptor_only_witness :
  let this := mkListener (Option := unit) (Options := unit) "tcp://:80" []
                None (Some 7) in
  let bs := mkBootstrap {[ "tcp://:80" := 1%positive ]} {[ 1%positive := this ]}
              false [] in
  heap bs !! 1%positive = Some this
  ∧ acceptor this = Some 7
  ∧ closed (Close (λ _ (_ : nat), Some "closed")%string 1%positive
              (Close (λ _ (_ : nat), Some "closed")%string 1%positive bs).2).2
    = [7; 7].
Proof.
  intros this bs. split_and!; [done..|].
  by apply (proj2 (Close_guards_on_acceptor_only (λ _ (_ : nat), Some "closed")%string
                     bs 1%positive this eq_refl) 7).
Defined.

End RegistryExtra.

(** * The accept loop of [Sync] *)

Module BootstrapExtra.
Import Bootstrap BootstrapTrace.

Section Sync.
Context {Option Options Acceptor Transport : Type}.
Context (ParseOptions : string → list Option → Options * option string).
Context (Listen : Options → option Acceptor * option string).
Context (Accept : Acceptor → nat → Transport * option string).
Context (Done : nat → bool).
Context (Close : Transport → option string).

Abbreviation loop := (accept_loop (Options := Options) Accept Done Close).
Abbreviation Sync'' := (Sync ParseOptions Listen Accept Done Close).
Abbreviation serving' := (serving (Options := Options) Accept).

(** [n] iterations that accept without an error while the context is not
    done serve their transports and leave the rest to the loop. *)
Lemma accept_loop_serving a n : ∀ k fuel,
  (∀ i, k ≤ i < k + n → (Accept a i).2 = None ∧ Done i = false) →
  loop (n + fuel) a k
  = ((loop fuel a (k + n)).1, serving' a k n ++ (loop fuel a (k + n)).2).
Proof.
  induction n as [|n IH]; intros k fuel Hok.
  - simpl. rewrite Nat.add_0_r. by destruct (loop fuel a k).
  - destruct (Hok k ltac:(lia)) as [Hacc Hdone].
    cbn [Nat.add accept_loop].
    destruct (Accept a k) as [t err] eqn:E. simpl in Hacc. subst err.
    rewrite Hdone, IH by (intros i Hi; apply Hok; lia).
    replace (S k + n) with (k + S n) by lia.
    unfold serving. cbn [seq flat_map]. by rewrite E.
Qed.

Lemma Sync_enters_loop fuel (l : listener) opts a :
  acceptor l = None →
  ParseOptions (url l) (option_list l) = (opts, None) →
  Listen opts = (Some a, None) →
  Sync'' fuel l
  = ((loop fuel a 0).1,
     mkListener (url l) (option_list l) (Some opts) (Some a),
     ParsedOptions (url l) :: Listened opts :: (loop fuel a 0).2).
Proof.
  intros Hnone Hparse Hlisten. unfold Sync.
  rewrite Hnone, Hparse, Hlisten. by destruct (loop fuel a 0).
Qed.



(** X24. A [Sync] that fails before it has an acceptor (the options do not parse,
    or the transport factory returns an error and no acceptor) leaves
    [l.acceptor] nil; a parse failure ends the call before the transport
    factory is asked.  The listener can then be started again: whatever the
    parser, the factory and the acceptor do the next time, the next [Sync]
    goes exactly as it would have on the listener before the failed call. *)
Theorem Sync_failed_start_can_be_retried fuel fuel' (l : listener) opts e
    (ParseOptions2 : string → list Option → Options * option string)
    (Listen2 : Options → option Acceptor * option string)
    (Accept2 : Acceptor → nat → Transport * option string)
    (Done2 : nat → bool) (Close2 : Transport → option string) :
  acceptor l = None →
  (ParseOptions (url l) (option_list l) = (opts, Some e)
   ∨ (ParseOptions (url l) (option_list l) = (opts, None)
      ∧ Listen opts = (None, Some e))) →
  let l' := (Sync'' fuel l).1.2 in
  (Sync'' fuel l).1.1 = Returned (Some e)
  ∧ acceptor l' = None
  ∧ (ParseOptions (url l) (option_list l) = (opts, Some e) →
     (Sync'' fuel l).2 = [ParsedOptions (url l)])
  ∧ Sync ParseOptions2 Listen2 Accept2 Done2 Close2 fuel' l'
    = Sync ParseOptions2 Listen2 Accept2 Done2 Close2 fuel' l.
Proof.
  intros Hnone [Hparse|[Hparse Hlisten]] l'; subst l'; unfold Sync;
    rewrite Hnone, Hparse, ?Hlisten; cbn; rewrite ?Hnone;
    by split_and!.
Qed.
End Sync.



Lemma Sync_failed_start_can_be_retried_witness :
  let l := mkListener (Option := unit) (Options := string) (Acceptor := nat)
             "tcp://127.0.0.1:0" [] None None in
  let parse (u : string) (_ : list unit) := (u, @None string) in
  let busy (_ : string) := (@None nat, Some "address already in use") in
  let listen (_ : string) := (Some 7, @None string) in
  let accept (_ n : nat) := (n, Some "closed") in
  acceptor l = None
  ∧ Sync parse listen accept (λ _, false) (λ _ : nat, None) 4
      (Sync parse busy accept (λ _, false) (λ _ : nat, None) 3 l).1.2
    = (Returned (Some "closed"),
       mkListener "tcp://127.0.0.1:0" [] (Some "tcp://127.0.0.1:0") (Some 7),
       [ParsedOptions "tcp://127.0.0.1:0"; Listened "tcp://127.0.0.1:0";
        Accepted 7]).
Proof.
  intros l parse busy listen accept. split; [done|].
  rewrite (proj2 (proj2 (proj2
    (Sync_failed_start_can_be_retried parse busy accept (λ _, false)
       (λ _ : nat, None) 3 4 l "tcp://127.0.0.1:0" "address already in use"
       parse listen accept (λ _, false) (λ _ : nat, None)
       eq_refl (or_intror (conj eq_refl eq_refl)))))).
  reflexivity.
Defined.

End BootstrapExtra.
